(** * A shallow embedding of rulp's text parser ([src/parser/impl_parser.rs])

    The parser splits a document on [';'], trims every piece, classifies it by
    substring tests and extracts its parts with five [regex] patterns.  The
    regexes are modelled by a small backtracking matcher with the
    leftmost-first semantics of Rust's [regex::Regex::captures]; each pattern
    of [Parser::new] is written out as a term of that matcher.

    Modelling choices:
    - text is a [list ascii]: the inputs are ASCII, where Rust's Unicode
      classes [\s], [\d], [\w] and [str::trim] coincide with the ASCII sets
      used below;
    - an [f64] is modelled by the exact rational value of the decimal literal
      it is parsed from ([Q], kept in lowest terms with [Qred]); the only
      float operation of the parser is the product by [1.] or [-1.], which is
      exact;
    - every [panic!], [unwrap] and [expect] becomes an error of the result
      type, with the error kinds of the specification: a statement of unknown
      shape is [MalformedStatement], the missing objective
      [MissingObjective], a regex without a match (or a missing capture)
      [UnmatchedPattern], and a number that does not parse
      [InvalidNumericLiteral]. *)

From Stdlib Require Import List Ascii String Bool Arith Lia ZArith QArith.
Import ListNotations.
Open Scope nat_scope.
Open Scope list_scope.

Definition text := list ascii.
Definition txt (s : string) : text := list_ascii_of_string s.

(** ** Character classes on ASCII *)

(** Rust's [\s] and [char::is_whitespace]: space, tab, LF, VT, FF, CR. *)
Definition is_space (c : ascii) : bool :=
  let n := nat_of_ascii c in (n =? 32) || ((9 <=? n) && (n <=? 13)).

(** Rust's [\d]. *)
Definition is_digit (c : ascii) : bool :=
  let n := nat_of_ascii c in (48 <=? n) && (n <=? 57).

(** Rust's [\w]: letters, digits and underscore. *)
Definition is_word (c : ascii) : bool :=
  let n := nat_of_ascii c in
  is_digit c || ((65 <=? n) && (n <=? 90)) || ((97 <=? n) && (n <=? 122))
  || (n =? 95).

(** A negated class [[^...]]. *)
Definition not_in (cs : text) (c : ascii) : bool :=
  negb (existsb (Ascii.eqb c) cs).

(** ** A backtracking regex matcher with captures *)

Module Regex.

Inductive re : Type :=
| Lit (s : text)                                 (** a literal *)
| Cls (p : ascii -> bool)                        (** one character of a class *)
| Seq (r1 r2 : re)                               (** concatenation *)
| Alt (r1 r2 : re)                               (** [r1|r2], [r1] preferred *)
| Opt (r : re)                                   (** greedy [r?] *)
| Rep (greedy : bool) (p : ascii -> bool) (min : nat)
    (** [p*], [p+] (greedy) or [p*?], [p+?] (lazy) over a class *)
| Grp (n : string) (r : re).                     (** capture group *)

(** [r1 r2 ... rn] *)
Definition seqs (rs : list re) : re := fold_right Seq (Lit []) rs.

(** Captures, newest first: the first entry of a name is its last match. *)
Definition caps := list (string * text).

Fixpoint prefixb (s l : text) : bool :=
  match s, l with
  | [], _ => true
  | x :: s', y :: l' => Ascii.eqb x y && prefixb s' l'
  | _ :: _, [] => false
  end.

(** Length of the longest prefix of [l] inside the class [p]. *)
Fixpoint span (p : ascii -> bool) (l : text) : nat :=
  match l with
  | x :: l' => if p x then S (span p l') else 0
  | [] => 0
  end.

Fixpoint first_some {A B : Type} (f : A -> option B) (xs : list A) : option B :=
  match xs with
  | [] => None
  | x :: xs' => match f x with Some v => Some v | None => first_some f xs' end
  end.

(** Repetition counts in the order they are tried: from [n] down to [min]
    when greedy, from [min] up to [n] when lazy. *)
Definition candidates (greedy : bool) (min n : nat) : list nat :=
  let up := seq min (S n - min) in if greedy then rev up else up.

(** [mt r l c k]: match [r] at the start of [l] with captures [c] so far and
    continue with [k] on the rest; the first success in backtracking order
    wins. *)
Fixpoint mt (r : re) (l : text) (c : caps) (k : text -> caps -> option caps)
  : option caps :=
  match r with
  | Lit s => if prefixb s l then k (skipn (List.length s) l) c else None
  | Cls p => match l with
             | x :: l' => if p x then k l' c else None
             | [] => None
             end
  | Seq r1 r2 => mt r1 l c (fun l' c' => mt r2 l' c' k)
  | Alt r1 r2 => match mt r1 l c k with Some v => Some v | None => mt r2 l c k end
  | Opt r1 => match mt r1 l c k with Some v => Some v | None => k l c end
  | Rep g p m => first_some (fun j => k (skipn j l) c) (candidates g m (span p l))
  | Grp n r1 =>
      mt r1 l c (fun l' c' => k l' ((n, firstn (List.length l - List.length l') l) :: c'))
  end.

(** [Regex::captures]: the leftmost start position with a match. *)
Fixpoint captures (r : re) (l : text) : option caps :=
  match mt r l [] (fun _ c => Some c) with
  | Some c => Some c
  | None => match l with [] => None | _ :: l' => captures r l' end
  end.

(** [caps.name(n)]: the text of the group's last match, if it took part. *)
Fixpoint cap (c : caps) (n : string) : option text :=
  match c with
  | [] => None
  | (m, t) :: c' => if String.eqb m n then Some t else cap c' n
  end.

(** What a regex matches: the text it consumes and the captures it adds
    (newest first), independent of the order in which [mt] tries them. *)
Inductive matches : re -> text -> caps -> Prop :=
| m_lit s : matches (Lit s) s []
| m_cls p x : p x = true -> matches (Cls p) [x] []
| m_seq r1 r2 w1 w2 d1 d2 :
    matches r1 w1 d1 -> matches r2 w2 d2 -> matches (Seq r1 r2) (w1 ++ w2) (d2 ++ d1)
| m_alt_l r1 r2 w d : matches r1 w d -> matches (Alt r1 r2) w d
| m_alt_r r1 r2 w d : matches r2 w d -> matches (Alt r1 r2) w d
| m_opt_some r w d : matches r w d -> matches (Opt r) w d
| m_opt_none r : matches (Opt r) [] []
| m_rep g p m w :
    Forall (fun x => p x = true) w -> m <= List.length w -> matches (Rep g p m) w []
| m_grp n r w d : matches r w d -> matches (Grp n r) w ((n, w) :: d).

End Regex.
Import Regex.

(** ** Text helpers: [str::split], [str::trim], [str::contains] *)

Fixpoint split (sep : ascii) (l : text) : list text :=
  match l with
  | [] => [[]]
  | x :: l' =>
      if Ascii.eqb x sep then [] :: split sep l'
      else match split sep l' with
           | [] => [[x]]
           | w :: ws => (x :: w) :: ws
           end
  end.

Fixpoint trim_start (l : text) : text :=
  match l with
  | x :: l' => if is_space x then trim_start l' else l
  | [] => []
  end.

Definition trim (l : text) : text := rev (trim_start (rev (trim_start l))).

Fixpoint contains (l needle : text) : bool :=
  prefixb needle l || match l with [] => false | _ :: l' => contains l' needle end.

(** ** Numbers: [str::parse::<f64>] on the literals the regexes capture *)

Fixpoint digits_value (l : text) (acc : Z) : Z :=
  match l with
  | [] => acc
  | d :: l' => digits_value l' (acc * 10 + (Z.of_nat (nat_of_ascii d) - 48))
  end.

(** A decimal literal [d+], [d+.], [.d+] or [d+.d+].  Rust's [f64::from_str]
    also takes signs, exponents, [inf] and [nan]; no capture of the parser
    can hold those (every number group is [\d+\.?\d*]), so they are
    reported as [None] here. *)
Definition parse_f64 (s : text) : option Q :=
  let ip := firstn (span is_digit s) s in
  let r := skipn (span is_digit s) s in
  match r with
  | [] => match ip with
          | [] => None
          | _ => Some (Qred (inject_Z (digits_value ip 0)))
          end
  | x :: fp =>
      if Ascii.eqb x "."%char && forallb is_digit fp
         && negb (Nat.eqb (List.length ip + List.length fp) 0)
      then Some (Qred (Qmake (digits_value (ip ++ fp) 0)
                             (Z.to_pos (10 ^ Z.of_nat (List.length fp)))))
      else None
  end.

(** ** Data model (the structs of [super::*] and [builder::Relation]) *)

(** Rust's [Variable]; the name is a keyword of Rocq. *)
Record WeightedVariable := mkVariable { name : text; coefficient : Q }.

Inductive Relation := LessThanOrEqual | GreaterThanOrEqual | Equal.

Record Constraint := mkConstraint {
  c_name : text; c_variables : list WeightedVariable;
  constant : Q; relation : Relation }.

Record Objective := mkObjective {
  o_name : text; o_variables : list WeightedVariable; maximize : bool }.

Record Components := mkComponents {
  variables : list WeightedVariable;
  constraints : list Constraint;
  objective : Objective }.

Inductive LineType := LT_Variable | LT_Constraint | LT_Objective | LT_Comment.

Inductive Component :=
| C_Variable (v : WeightedVariable)
| C_Constraint (c : Constraint)
| C_Objective (o : Objective)
| C_Comment.

(** ** Errors: the panics of the source as an error monad *)

Inductive ParseError :=
| MalformedStatement | MissingObjective | UnmatchedPattern | InvalidNumericLiteral.

Definition result (A : Type) : Type := (ParseError + A)%type.

Definition bind {A B : Type} (m : result A) (f : A -> result B) : result B :=
  match m with inl e => inl e | inr a => f a end.

Notation "'let*' x ':=' m 'in' f" := (bind m (fun x => f))
  (at level 200, x name, f at level 200).

(** [option::unwrap] / [expect] with the error it stands for. *)
Definition unwrap {A : Type} (e : ParseError) (o : option A) : result A :=
  match o with Some a => inr a | None => inl e end.

(** [iter.map(f).collect::<Vec<_>>()] with a panicking [f]: the first
    failure, in order, aborts. *)
Fixpoint map_res {A B : Type} (f : A -> result B) (l : list A) : result (list B) :=
  match l with
  | [] => inr []
  | x :: l' => let* y := f x in let* ys := map_res f l' in inr (y :: ys)
  end.

(** ** The regexes of [Parser::new] *)

(** The pattern [\d+\.?\d*]. *)
Definition number_re : re :=
  seqs [Rep true is_digit 1; Opt (Lit (txt ".")); Rep true is_digit 0].

(** The pattern [var\s+(?P<name>\w+)\s*]. *)
Definition variable_declaration_regex : re :=
  seqs [Lit (txt "var"); Rep true is_space 1;
        Grp "name" (Rep true is_word 1); Rep true is_space 0].

(** The pattern [((?:\s*(?P<sign>-)?\s* )(?P<coeff>\d+\.?\d* )\s*\*\s* )?(?P<name>\w+)] (a space added after each star that a parenthesis follows). *)
Definition variable_regex : re :=
  seqs [Opt (Grp "1" (seqs [
                seqs [Rep true is_space 0; Opt (Grp "sign" (Lit (txt "-")));
                      Rep true is_space 0];
                Grp "coeff" number_re;
                Rep true is_space 0; Lit (txt "*"); Rep true is_space 0]));
        Grp "name" (Rep true is_word 1)].

(** The pattern [(?P<type>minimize|maximize)\s+(?P<name>\w+)\s*:\s*(?P<equation>[^;]* )] (a space added after each star that a parenthesis follows). *)
Definition objective_regex : re :=
  seqs [Grp "type" (Alt (Lit (txt "minimize")) (Lit (txt "maximize")));
        Rep true is_space 1; Grp "name" (Rep true is_word 1);
        Rep true is_space 0; Lit (txt ":"); Rep true is_space 0;
        Grp "equation" (Rep true (not_in (txt ";")) 0)].

(** The pattern [subject to (?P<name>\w* ):\s*(?P<terms>[^=><]+?)\s*(?P<type>==|<=|>=)\s*?(?P<constant>\d+\.?\d* )\s*?] (a space added after each star that a parenthesis follows). *)
Definition constraint_regex : re :=
  seqs [Lit (txt "subject to "); Grp "name" (Rep true is_word 0); Lit (txt ":");
        Rep true is_space 0; Grp "terms" (Rep false (not_in (txt "=><")) 1);
        Rep true is_space 0;
        Grp "type" (Alt (Lit (txt "==")) (Alt (Lit (txt "<=")) (Lit (txt ">="))));
        Rep false is_space 0; Grp "constant" number_re; Rep false is_space 0].

(** [equation_component_regex] is built by [Parser::new] but used nowhere. *)

(** ** The parser *)

(** [caps["n"]] *)
Definition group (c : caps) (n : string) : result text :=
  unwrap UnmatchedPattern (cap c n).

(** [Parser::get_line_type] *)
Definition get_line_type (line : text) : result LineType :=
  if contains line (txt "#") then inr LT_Comment
  else if contains line (txt "var") then inr LT_Variable
  else if contains line (txt "minimize") || contains line (txt "maximize")
  then inr LT_Objective
  else if contains line (txt "subject to") then inr LT_Constraint
  else inl MalformedStatement.

(** [Parser::parse_variable_declaration] *)
Definition parse_variable_declaration (data : text) : result WeightedVariable :=
  let* caps := unwrap UnmatchedPattern (captures variable_declaration_regex data) in
  let* n := group caps "name" in
  inr (mkVariable n 0).

(** [Parser::parse_variable] *)
Definition parse_variable (data : text) : result WeightedVariable :=
  let* caps := unwrap UnmatchedPattern (captures variable_regex data) in
  let* n := group caps "name" in
  let sign := match cap caps "sign" with None => 1%Q | Some _ => (-1)%Q end in
  let* coefficient :=
    match cap caps "coeff" with
    | None => inr 1%Q
    | Some coeff => unwrap InvalidNumericLiteral (parse_f64 coeff)
    end in
  inr (mkVariable n (coefficient * sign)%Q).

(** [Parser::parse_objective_vars] *)
Definition parse_objective_vars (data : text) : result (list WeightedVariable) :=
  map_res parse_variable (map trim (split "+"%char data)).

(** [Parser::parse_constraint] *)
Definition parse_constraint (data : text) : result Constraint :=
  let* caps := unwrap UnmatchedPattern (captures constraint_regex data) in
  let* n := group caps "name" in
  let* ty := group caps "type" in
  let relation :=
    if contains ty (txt "<") then LessThanOrEqual
    else if contains ty (txt ">") then GreaterThanOrEqual
    else Equal in
  let* cst := group caps "constant" in
  let* constant := unwrap InvalidNumericLiteral (parse_f64 cst) in
  let* terms := group caps "terms" in
  let* vars := parse_objective_vars terms in
  inr (mkConstraint n vars constant relation).

(** [Parser::parse_objective] *)
Definition parse_objective (data : text) : result Objective :=
  let* caps := unwrap UnmatchedPattern (captures objective_regex data) in
  let* n := group caps "name" in
  let* eqn := group caps "equation" in
  let* vars := parse_objective_vars eqn in
  let* ty := group caps "type" in
  inr (mkObjective n vars (contains ty (txt "maximize"))).

(** [Parser::component_from_line] *)
Definition component_from_line (line : text) : result Component :=
  let* lt := get_line_type line in
  match lt with
  | LT_Variable => let* v := parse_variable_declaration line in inr (C_Variable v)
  | LT_Constraint => let* c := parse_constraint line in inr (C_Constraint c)
  | LT_Objective => let* o := parse_objective line in inr (C_Objective o)
  | LT_Comment => inr C_Comment
  end.

(** The statements of a document: [text.split(';').map(trim).filter(len > 0)]. *)
Definition statements (doc : text) : list text :=
  filter (fun line => negb (Nat.eqb (List.length line) 0)) (map trim (split ";"%char doc)).

Definition is_comment (c : Component) : bool :=
  match c with C_Comment => true | _ => false end.

(** The [for c in components] loop of [get_components]: the buckets
    [variables], [constraints] and [objective]. *)
Definition step (acc : list WeightedVariable * list Constraint * option Objective)
    (c : Component) : list WeightedVariable * list Constraint * option Objective :=
  let '(vs, cs, o) := acc in
  match c with
  | C_Variable v => (vs ++ [v], cs, o)
  | C_Constraint con => (vs, cs ++ [con], o)
  | C_Objective obj => (vs, cs, Some obj)
  | C_Comment => (vs, cs, o)
  end.

(** [Parser::get_components] (and [parse_components_from_text]) *)
Definition get_components (doc : text) : result Components :=
  let* comps := map_res component_from_line (statements doc) in
  let comps := filter (fun c => negb (is_comment c)) comps in
  let '(vs, cs, o) := fold_left step comps ([], [], None) in
  let* obj := unwrap MissingObjective o in
  inr (mkComponents vs cs obj).

(** ** Vocabulary for statements about documents *)

Definition kind_of (c : Component) : LineType :=
  match c with
  | C_Variable _ => LT_Variable
  | C_Constraint _ => LT_Constraint
  | C_Objective _ => LT_Objective
  | C_Comment => LT_Comment
  end.

Definition LineType_eqb (a b : LineType) : bool :=
  match a, b with
  | LT_Variable, LT_Variable | LT_Constraint, LT_Constraint
  | LT_Objective, LT_Objective | LT_Comment, LT_Comment => true
  | _, _ => false
  end.

(** The statement [s] is classified as [k] by [get_line_type]. *)
Definition has_kind (k : LineType) (s : text) : bool :=
  match get_line_type s with inr k' => LineType_eqb k k' | inl _ => false end.

(** How many statements of a list are classified as [k]. *)
Definition count_kind (k : LineType) (stmts : list text) : nat :=
  List.length (filter (has_kind k) stmts).

(** A statement is well formed when [component_from_line] does not panic on it. *)
Definition well_formed (s : text) : Prop := exists c, component_from_line s = inr c.

Fixpoint constraints_of (cs : list Component) : list Constraint :=
  match cs with
  | [] => []
  | C_Constraint x :: cs' => x :: constraints_of cs'
  | _ :: cs' => constraints_of cs'
  end.

Fixpoint objectives_of (cs : list Component) : list Objective :=
  match cs with
  | [] => []
  | C_Objective x :: cs' => x :: objectives_of cs'
  | _ :: cs' => objectives_of cs'
  end.

Fixpoint variables_of (cs : list Component) : list WeightedVariable :=
  match cs with
  | [] => []
  | C_Variable x :: cs' => x :: variables_of cs'
  | _ :: cs' => variables_of cs'
  end.

(** A decidable form of [well_formed] over a list of statements. *)
Definition all_parse (stmts : list text) : bool :=
  forallb (fun s => match component_from_line s with inr _ => true | inl _ => false end)
    stmts.

(** ** Sample documents *)

Definition doc_one_objective : text :=
  txt "var a; var b; maximize profit: 3*a + b; # two constraints follow;
       subject to c1: a + b <= 4; subject to c2: a >= 1;".

Definition doc_two_objectives : text :=
  txt "var a; minimize first: a; subject to c: a >= 1; maximize second: 2*a;".

Definition doc_signed_constant : text :=
  txt "var a; maximize o: a; subject to c: a <= -5;".

Definition doc_advertising : text :=
  txt "var television; var newspaper; var radio;
       maximize objective: 100000*television + 40000*newspaper + 18000*radio;
       subject to constraint_1: 20*television + 6*newspaper + 3*radio <= 182;
       subject to constraint_2: newspaper <= 10;
       subject to constraint_3: -1*television + -1*newspaper + radio <= 0;
       subject to constraint_4: -9*television + newspaper + radio <= 0;".

(** The error a result carries, if any. *)
Definition error_of {A : Type} (r : result A) : option ParseError :=
  match r with inl e => Some e | inr _ => None end.

(** ** The aggregator *)

Section Aggregator.

Lemma LineType_eqb_spec (a b : LineType) : LineType_eqb a b = true <-> a = b.
Proof. destruct a, b; simpl; split; congruence. Qed.

Lemma map_res_ok {A B : Type} (f : A -> result B) (l : list A) :
  (forall x, In x l -> exists y, f x = inr y) ->
  exists ys, map_res f l = inr ys.
Proof.
  induction l as [|x l IH]; intros H; simpl.
  - eauto.
  - destruct (H x (or_introl eq_refl)) as [y Hy]. rewrite Hy. simpl.
    destruct IH as [ys Hys]; [intros z Hz; apply H; right; exact Hz|].
    rewrite Hys. simpl. eauto.
Qed.

Lemma map_res_Forall2 {A B : Type} (f : A -> result B) (l : list A) ys :
  map_res f l = inr ys -> Forall2 (fun x y => f x = inr y) l ys.
Proof.
  revert ys; induction l as [|x l IH]; intros ys H; simpl in H.
  - injection H as <-. constructor.
  - destruct (f x) as [e|y] eqn:Hx; simpl in H; [discriminate|].
    destruct (map_res f l) as [e|ys'] eqn:Hl; simpl in H; [discriminate|].
    injection H as <-. constructor; auto.
Qed.


(** The first failure wins: a failure after well-formed statements is the
    failure of the whole list. *)
Lemma map_res_first_err {A B : Type} (f : A -> result B) pre x post e :
  (forall y, In y pre -> exists z, f y = inr z) ->
  f x = inl e -> map_res f (pre ++ x :: post) = inl e.
Proof.
  induction pre as [|y pre IH]; intros Hpre Hx; simpl.
  - rewrite Hx. reflexivity.
  - destruct (Hpre y (or_introl eq_refl)) as [z Hz]. rewrite Hz. simpl.
    rewrite IH; auto. intros w Hw. apply Hpre. right. exact Hw.
Qed.

(** The first failure of a list: when some element fails, there is a first
    one, all elements before it succeed, and its error is the error of the
    whole list. *)
Lemma map_res_first_fail {A B : Type} (f : A -> result B) (l : list A) :
  (exists x, In x l /\ forall z, f x <> inr z) ->
  exists pre x post e, l = pre ++ x :: post /\
    (forall y, In y pre -> exists z, f y = inr z) /\
    f x = inl e /\ map_res f l = inl e.
Proof.
  induction l as [|x l IH]; intros [w [Hw Hfw]]; [destruct Hw|].
  destruct (f x) as [e|z] eqn:Hx.
  - exists [], x, l, e. split; [reflexivity|]. split; [intros y []|].
    split; [exact Hx|]. simpl. rewrite Hx. reflexivity.
  - destruct Hw as [<-|Hw]; [exfalso; exact (Hfw z Hx)|].
    destruct IH as (pre & y & post & e & -> & Hpre & Hy & Hl); [eauto|].
    exists (x :: pre), y, post, e. split; [reflexivity|].
    split; [intros u [<-|Hu]; eauto|]. split; [exact Hy|].
    simpl. rewrite Hx, Hl. reflexivity.
Qed.

Lemma last_default {A : Type} (a : A) l d d' : last (a :: l) d = last (a :: l) d'.
Proof.
  revert a; induction l as [|b l IH]; intros a; [reflexivity|].
  change (last (b :: l) d = last (b :: l) d'). apply IH.
Qed.

Lemma fold_step (comps : list Component) vs cs o :
  fold_left step comps (vs, cs, o) =
  (vs ++ variables_of comps, cs ++ constraints_of comps,
   last (o :: map Some (objectives_of comps)) o).
Proof.
  revert vs cs o; induction comps as [|c comps IH]; intros vs cs o; simpl.
  - rewrite !app_nil_r. reflexivity.
  - destruct c as [v|x|x|]; simpl; rewrite IH; simpl;
      rewrite <- ?app_assoc; try reflexivity.
    f_equal. destruct (map Some (objectives_of comps)) as [|b l];
      [reflexivity|apply last_default].
Qed.

Lemma constraints_of_filter (comps : list Component) :
  constraints_of (filter (fun c => negb (is_comment c)) comps) = constraints_of comps.
Proof. induction comps as [|[] comps IH]; simpl; congruence. Qed.

Lemma objectives_of_filter (comps : list Component) :
  objectives_of (filter (fun c => negb (is_comment c)) comps) = objectives_of comps.
Proof. induction comps as [|[] comps IH]; simpl; congruence. Qed.

Lemma variables_of_filter (comps : list Component) :
  variables_of (filter (fun c => negb (is_comment c)) comps) = variables_of comps.
Proof. induction comps as [|[] comps IH]; simpl; congruence. Qed.

(** [get_components] on a document whose statements all parse. *)
Lemma get_components_ok (doc : text) comps :
  map_res component_from_line (statements doc) = inr comps ->
  get_components doc =
  match last (None :: map Some (objectives_of comps)) None with
  | Some obj => inr (mkComponents (variables_of comps) (constraints_of comps) obj)
  | None => inl MissingObjective
  end.
Proof.
  intros H. unfold get_components. rewrite H. cbn [bind].
  rewrite fold_step, constraints_of_filter, objectives_of_filter, variables_of_filter.
  destruct (last (None :: map Some (objectives_of comps)) None); reflexivity.
Qed.

Lemma component_kind (s : text) c :
  component_from_line s = inr c -> get_line_type s = inr (kind_of c).
Proof.
  unfold component_from_line. destruct (get_line_type s) as [e|[]]; simpl;
    try discriminate.
  - destruct (parse_variable_declaration s); simpl; [discriminate|].
    intros H; injection H as <-; reflexivity.
  - destruct (parse_constraint s); simpl; [discriminate|].
    intros H; injection H as <-; reflexivity.
  - destruct (parse_objective s); simpl; [discriminate|].
    intros H; injection H as <-; reflexivity.
  - intros H; injection H as <-; reflexivity.
Qed.

Lemma component_objective (s : text) o :
  component_from_line s = inr (C_Objective o) -> parse_objective s = inr o.
Proof.
  unfold component_from_line. destruct (get_line_type s) as [e|[]]; simpl;
    try discriminate.
  - destruct (parse_variable_declaration s); simpl; discriminate.
  - destruct (parse_constraint s); simpl; discriminate.
  - destruct (parse_objective s); simpl; [discriminate|].
    intros H; injection H as ->; reflexivity.
Qed.

Lemma count_constraints stmts comps :
  Forall2 (fun x y => component_from_line x = inr y) stmts comps ->
  List.length (constraints_of comps) = count_kind LT_Constraint stmts.
Proof.
  unfold count_kind. induction 1 as [|s c stmts comps Hc _ IH]; simpl; auto.
  unfold has_kind at 1. rewrite (component_kind _ _ Hc).
  destruct c; simpl; auto.
Qed.

Lemma count_objectives stmts comps :
  Forall2 (fun x y => component_from_line x = inr y) stmts comps ->
  List.length (objectives_of comps) = count_kind LT_Objective stmts.
Proof.
  unfold count_kind. induction 1 as [|s c stmts comps Hc _ IH]; simpl; auto.
  unfold has_kind at 1. rewrite (component_kind _ _ Hc).
  destruct c; simpl; auto.
Qed.

Lemma objective_statement_in stmts comps s :
  Forall2 (fun x y => component_from_line x = inr y) stmts comps ->
  In s stmts -> get_line_type s = inr LT_Objective ->
  exists o, In o (objectives_of comps) /\ parse_objective s = inr o.
Proof.
  induction 1 as [|t c stmts comps Hc _ IH]; intros Hin Hk; [destruct Hin|].
  destruct Hin as [<-|Hin].
  - rewrite (component_kind _ _ Hc) in Hk. destruct c; simpl in Hk; try discriminate.
    exists o. split; [left; reflexivity|]. apply component_objective; exact Hc.
  - destruct (IH Hin Hk) as [o [Ho Hp]]. exists o. split; auto.
    destruct c; simpl; auto.
Qed.

Lemma all_parse_well_formed stmts :
  all_parse stmts = true -> forall s, In s stmts -> well_formed s.
Proof.
  unfold all_parse. rewrite forallb_forall. intros H s Hs. specialize (H s Hs).
  destruct (component_from_line s) eqn:E; [discriminate|]. exists c; exact E.
Qed.

Lemma Forall2_well_formed stmts comps :
  Forall2 (fun x y => component_from_line x = inr y) stmts comps ->
  forall s, In s stmts -> well_formed s.
Proof.
  induction 1 as [|t c stmts comps Hc _ IH]; intros s Hs; [destruct Hs|].
  destruct Hs as [<-|Hs]; [exists c; exact Hc|auto].
Qed.

Lemma get_components_err (doc : text) e :
  map_res component_from_line (statements doc) = inl e -> get_components doc = inl e.
Proof. intros H. unfold get_components. rewrite H. reflexivity. Qed.

Lemma get_components_inr (doc : text) comps :
  get_components doc = inr comps ->
  exists cs, map_res component_from_line (statements doc) = inr cs.
Proof.
  destruct (map_res component_from_line (statements doc)) as [e|cs] eqn:E.
  - rewrite (get_components_err _ _ E). discriminate.
  - eauto.
Qed.

Lemma Forall2_in_left stmts comps s :
  Forall2 (fun x y => component_from_line x = inr y) stmts comps ->
  In s stmts -> exists c, component_from_line s = inr c.
Proof. intros HF Hs. exact (Forall2_well_formed _ _ HF s Hs). Qed.

Lemma last_some_exists (x : Objective) xs :
  exists o, last (None :: map Some (x :: xs)) None = Some o.
Proof.
  revert x; induction xs as [|y xs IH]; intros x; [exists x; reflexivity|].
  destruct (IH y) as [o Ho]. exists o. exact Ho.
Qed.

Lemma last_objective_statement stmts comps o :
  Forall2 (fun x y => component_from_line x = inr y) stmts comps ->
  last (None :: map Some (objectives_of comps)) None = Some o ->
  exists pre s post, stmts = pre ++ s :: post /\
    get_line_type s = inr LT_Objective /\
    (forall t, In t post -> get_line_type t <> inr LT_Objective) /\
    parse_objective s = inr o.
Proof.
  induction 1 as [|t c stmts comps Hc Hall IH]; intros Hlast; [discriminate|].
  destruct (objectives_of comps) as [|x xs] eqn:Hobj.
  - destruct c as [v|k|k|]; simpl in Hlast; rewrite Hobj in Hlast; simpl in Hlast;
      try discriminate.
    injection Hlast as ->. exists [], t, stmts. repeat split.
    + rewrite (component_kind _ _ Hc). reflexivity.
    + intros t' Ht' Hk. destruct (objective_statement_in _ _ _ Hall Ht' Hk)
        as [o' [Ho' _]]. rewrite Hobj in Ho'. destruct Ho'.
    + apply component_objective. exact Hc.
  - destruct IH as [pre [s [post [-> [Hk [Hpost Hp]]]]]].
    + rewrite <- Hlast. destruct c; simpl; rewrite Hobj; reflexivity.
    + exists (t :: pre), s, post. repeat split; auto.
Qed.

End Aggregator.

(** ** Errors of a statement *)

Section StatementErrors.

Lemma bind_nm {A B : Type} (m : result A) (f : A -> result B) :
  error_of m <> Some MissingObjective ->
  (forall a, error_of (f a) <> Some MissingObjective) ->
  error_of (bind m f) <> Some MissingObjective.
Proof. intros H1 H2. destruct m; [exact H1|apply H2]. Qed.

Lemma unwrap_nm {A : Type} e (o : option A) :
  e <> MissingObjective -> error_of (unwrap e o) <> Some MissingObjective.
Proof. destruct o; simpl; congruence. Qed.

Lemma map_res_nm {A B : Type} (f : A -> result B) l :
  (forall x, error_of (f x) <> Some MissingObjective) ->
  error_of (map_res f l) <> Some MissingObjective.
Proof.
  intros Hf. induction l as [|x l IH]; simpl; [discriminate|].
  apply bind_nm; [apply Hf|]. intros y. apply bind_nm; [exact IH|].
  intros ys. discriminate.
Qed.

Ltac solve_nm :=
  repeat match goal with
  | |- error_of (bind _ _) <> _ => apply bind_nm
  | |- error_of (unwrap _ _) <> _ => apply unwrap_nm; discriminate
  | |- error_of (group _ _) <> _ => apply unwrap_nm; discriminate
  | |- error_of (inr _) <> _ => discriminate
  | |- error_of (inl _) <> _ => discriminate
  | |- error_of (let _ := _ in _) <> _ => cbv zeta
  | |- error_of (match ?x with _ => _ end) <> _ => destruct x
  | |- forall _ : _, _ => intro
  end.

Lemma parse_variable_nm s : error_of (parse_variable s) <> Some MissingObjective.
Proof. unfold parse_variable. solve_nm. Qed.

Lemma parse_objective_vars_nm s :
  error_of (parse_objective_vars s) <> Some MissingObjective.
Proof. apply map_res_nm, parse_variable_nm. Qed.

Lemma component_from_line_nm s :
  error_of (component_from_line s) <> Some MissingObjective.
Proof.
  unfold component_from_line, get_line_type, parse_variable_declaration,
    parse_constraint, parse_objective.
  solve_nm; apply parse_objective_vars_nm.
Qed.

End StatementErrors.

(** ** Claims about whole documents *)

(** C1: for a document whose statements all parse, with exactly one
    statement classified as an objective and [N] classified as constraints,
    parsing succeeds, [constraints] has length [N] and [objective] is the
    record parsed from the objective statement. *)
Theorem get_components_one_objective (doc : text) (N : nat) :
  (forall s, In s (statements doc) -> well_formed s) ->
  count_kind LT_Objective (statements doc) = 1 ->
  count_kind LT_Constraint (statements doc) = N ->
  exists comps, get_components doc = inr comps /\
    List.length (constraints comps) = N /\
    (forall s, In s (statements doc) -> get_line_type s = inr LT_Objective ->
       parse_objective s = inr (objective comps)).
Proof.
  intros Hwf H1 HN.
  destruct (map_res_ok component_from_line (statements doc)) as [comps Hc];
    [exact Hwf|].
  pose proof (map_res_Forall2 _ _ _ Hc) as HF.
  rewrite (get_components_ok doc comps Hc).
  pose proof (count_objectives _ _ HF) as Ho. rewrite H1 in Ho.
  destruct (objectives_of comps) as [|o [|o' os]] eqn:E; simpl in Ho;
    try discriminate.
  simpl. eexists; split; [reflexivity|]. simpl. split.
  - rewrite (count_constraints _ _ HF). exact HN.
  - intros s Hs Hk. destruct (objective_statement_in _ _ _ HF Hs Hk) as [o2 [Hin Hp]].
    rewrite E in Hin. destruct Hin as [<-|[]]. exact Hp.
Qed.


Lemma get_components_one_objective_witness :
  (forall s, In s (statements doc_one_objective) -> well_formed s) /\
  count_kind LT_Objective (statements doc_one_objective) = 1 /\
  count_kind LT_Constraint (statements doc_one_objective) = 2 /\
  exists comps, get_components doc_one_objective = inr comps /\
    List.length (constraints comps) = 2 /\
    (forall s, In s (statements doc_one_objective) ->
       get_line_type s = inr LT_Objective -> parse_objective s = inr (objective comps)).
Proof.
  assert (Hwf : forall s, In s (statements doc_one_objective) -> well_formed s)
    by (apply all_parse_well_formed; vm_compute; reflexivity).
  split; [exact Hwf|]. split; [vm_compute; reflexivity|].
  split; [vm_compute; reflexivity|].
  apply get_components_one_objective; [exact Hwf|vm_compute; reflexivity..].
Defined.

(** C7: when a document whose statements all parse has more than one
    objective statement, parsing succeeds and [objective] is the record
    parsed from the last one; no later statement is an objective. *)
Theorem get_components_last_objective (doc : text) :
  (forall s, In s (statements doc) -> well_formed s) ->
  1 < count_kind LT_Objective (statements doc) ->
  exists comps, get_components doc = inr comps /\
    exists pre s post, statements doc = pre ++ s :: post /\
      get_line_type s = inr LT_Objective /\
      (forall t, In t post -> get_line_type t <> inr LT_Objective) /\
      parse_objective s = inr (objective comps).
Proof.
  intros Hwf H2.
  destruct (map_res_ok component_from_line (statements doc)) as [comps Hc];
    [exact Hwf|].
  pose proof (map_res_Forall2 _ _ _ Hc) as HF.
  rewrite (get_components_ok doc comps Hc).
  pose proof (count_objectives _ _ HF) as Ho.
  destruct (objectives_of comps) as [|x xs] eqn:E; [simpl in Ho; lia|].
  destruct (last_some_exists x xs) as [o Hlast]. rewrite Hlast.
  eexists; split; [reflexivity|]. simpl.
  apply (last_objective_statement _ _ _ HF). rewrite E. exact Hlast.
Qed.


Lemma get_components_last_objective_witness :
  (forall s, In s (statements doc_two_objectives) -> well_formed s) /\
  1 < count_kind LT_Objective (statements doc_two_objectives) /\
  exists comps, get_components doc_two_objectives = inr comps /\
    exists pre s post, statements doc_two_objectives = pre ++ s :: post /\
      get_line_type s = inr LT_Objective /\
      (forall t, In t post -> get_line_type t <> inr LT_Objective) /\
      parse_objective s = inr (objective comps).
Proof.
  assert (Hwf : forall s, In s (statements doc_two_objectives) -> well_formed s)
    by (apply all_parse_well_formed; vm_compute; reflexivity).
  assert (H2 : 1 < count_kind LT_Objective (statements doc_two_objectives))
    by (vm_compute; lia).
  split; [exact Hwf|]. split; [exact H2|].
  apply get_components_last_objective; assumption.
Defined.

(** The objective kept for [doc_two_objectives] is the [maximize] one. *)
Example doc_two_objectives_keeps_second :
  match get_components doc_two_objectives with
  | inr comps => o_name (objective comps) = txt "second" /\ maximize (objective comps) = true
  | inl _ => False
  end.
Proof. vm_compute. split; reflexivity. Qed.

(** C5 (as stated, refuted): ["foo;"] has no objective statement, yet its
    parse fails with [MalformedStatement], not [MissingObjective]. *)
Lemma get_components_no_objective_counterexample :
  count_kind LT_Objective (statements (txt "foo;")) = 0 /\
  get_components (txt "foo;") = inl MalformedStatement /\
  get_components (txt "foo;") <> inl MissingObjective.
Proof. vm_compute. split; [reflexivity|]. split; [reflexivity|discriminate]. Qed.

(** C5 (amended): a document with no statement classified as an objective
    never parses; the error is [MissingObjective] exactly when all its
    statements parse; otherwise the parse fails with the error of the first
    statement that does not parse, all statements before it parsing. *)
Theorem get_components_no_objective (doc : text) :
  count_kind LT_Objective (statements doc) = 0 ->
  (forall comps, get_components doc <> inr comps) /\
  (get_components doc = inl MissingObjective <->
   forall s, In s (statements doc) -> well_formed s) /\
  ((exists t, In t (statements doc) /\ ~ well_formed t) ->
   exists pre s post e, statements doc = pre ++ s :: post /\
     (forall t, In t pre -> well_formed t) /\
     component_from_line s = inl e /\ get_components doc = inl e).
Proof.
  intros H0.
  assert (Hfirst : (exists t, In t (statements doc) /\ ~ well_formed t) ->
    exists pre s post e, statements doc = pre ++ s :: post /\
      (forall t, In t pre -> well_formed t) /\
      component_from_line s = inl e /\ get_components doc = inl e).
  { intros [t [Ht Hnw]].
    destruct (map_res_first_fail component_from_line (statements doc))
      as (pre & s & post & e & Hst & Hpre & Hs & Hl).
    { exists t. split; [exact Ht|]. intros z Hz. apply Hnw. exists z. exact Hz. }
    exists pre, s, post, e. split; [exact Hst|]. split; [exact Hpre|].
    split; [exact Hs|]. exact (get_components_err _ _ Hl). }
  cut ((forall comps, get_components doc <> inr comps) /\
       (get_components doc = inl MissingObjective <->
        forall s, In s (statements doc) -> well_formed s));
    [intros [Ha Hb]; split; [exact Ha|]; split; [exact Hb|exact Hfirst]|].
  destruct (map_res component_from_line (statements doc)) as [e|comps] eqn:Hc.
  - rewrite (get_components_err _ _ Hc).
    pose proof (map_res_nm component_from_line (statements doc)
                  component_from_line_nm) as Hnm.
    rewrite Hc in Hnm. simpl in Hnm.
    split; [intros comps; discriminate|]. split.
    + intros He. injection He as ->. contradiction.
    + intros Hwf. destruct (map_res_ok _ _ Hwf) as [ys Hys]. congruence.
  - pose proof (map_res_Forall2 _ _ _ Hc) as HF.
    rewrite (get_components_ok doc comps Hc).
    pose proof (count_objectives _ _ HF) as Ho. rewrite H0 in Ho.
    destruct (objectives_of comps) as [|x xs]; [|discriminate]. simpl.
    split; [intros comps'; discriminate|]. split; [|reflexivity].
    intros _. exact (Forall2_well_formed _ _ HF).
Qed.

Lemma get_components_no_objective_witness :
  count_kind LT_Objective (statements (txt "var a; subject to c: a <= 1;")) = 0 /\
  (forall comps, get_components (txt "var a; subject to c: a <= 1;") <> inr comps) /\
  (get_components (txt "var a; subject to c: a <= 1;") = inl MissingObjective <->
   forall s, In s (statements (txt "var a; subject to c: a <= 1;")) -> well_formed s) /\
  ((exists t, In t (statements (txt "var a; subject to c: a <= 1;")) /\ ~ well_formed t) ->
   exists pre s post e, statements (txt "var a; subject to c: a <= 1;") = pre ++ s :: post /\
     (forall t, In t pre -> well_formed t) /\
     component_from_line s = inl e /\
     get_components (txt "var a; subject to c: a <= 1;") = inl e).
Proof.
  assert (H0 : count_kind LT_Objective (statements (txt "var a; subject to c: a <= 1;")) = 0)
    by (vm_compute; reflexivity).
  split; [exact H0|]. apply get_components_no_objective; exact H0.
Defined.

(** C6 (as stated, refuted): in ["var;foo;"] the statement ["foo"] has none of
    the markers, but the parse fails with the error of the earlier statement
    ["var"] ([UnmatchedPattern]), not with [MalformedStatement]. *)
Lemma get_components_unknown_statement_counterexample :
  In (txt "foo") (statements (txt "var;foo;")) /\
  contains (txt "foo") (txt "#") = false /\ contains (txt "foo") (txt "var") = false /\
  contains (txt "foo") (txt "minimize") = false /\
  contains (txt "foo") (txt "maximize") = false /\
  contains (txt "foo") (txt "subject to") = false /\
  get_components (txt "var;foo;") = inl UnmatchedPattern /\
  get_components (txt "var;foo;") <> inl MalformedStatement.
Proof.
  vm_compute. split; [right; left; reflexivity|].
  repeat split; discriminate.
Qed.

(** C6 (amended): a statement with none of the markers ["#"], ["var"],
    ["minimize"], ["maximize"], ["subject to"] is rejected by the classifier
    with [MalformedStatement]; a document containing it never parses; when
    every statement before it parses the error is [MalformedStatement], and
    otherwise it is the error of the first earlier statement that does not
    parse, all statements before that one parsing. *)
Theorem get_components_unknown_statement (doc : text) pre s post :
  statements doc = pre ++ s :: post ->
  contains s (txt "#") = false -> contains s (txt "var") = false ->
  contains s (txt "minimize") = false -> contains s (txt "maximize") = false ->
  contains s (txt "subject to") = false ->
  get_line_type s = inl MalformedStatement /\
  (forall comps, get_components doc <> inr comps) /\
  ((forall t, In t pre -> well_formed t) -> get_components doc = inl MalformedStatement) /\
  ((exists t, In t pre /\ ~ well_formed t) ->
   exists pre1 t post1 e, pre = pre1 ++ t :: post1 /\
     (forall u, In u pre1 -> well_formed u) /\
     component_from_line t = inl e /\ get_components doc = inl e).
Proof.
  intros Hst H1 H2 H3 H4 H5.
  assert (Hfirst : (exists t, In t pre /\ ~ well_formed t) ->
    exists pre1 t post1 e, pre = pre1 ++ t :: post1 /\
      (forall u, In u pre1 -> well_formed u) /\
      component_from_line t = inl e /\ get_components doc = inl e).
  { intros [t [Ht Hnw]].
    destruct (map_res_first_fail component_from_line pre)
      as (pre1 & u & post1 & e & Hpre & Hpre1 & Hu & _).
    { exists t. split; [exact Ht|]. intros z Hz. apply Hnw. exists z. exact Hz. }
    exists pre1, u, post1, e. split; [exact Hpre|]. split; [exact Hpre1|].
    split; [exact Hu|]. apply get_components_err. rewrite Hst, Hpre, <- app_assoc.
    apply map_res_first_err; [exact Hpre1|exact Hu]. }
  cut (get_line_type s = inl MalformedStatement /\
       (forall comps, get_components doc <> inr comps) /\
       ((forall t, In t pre -> well_formed t) -> get_components doc = inl MalformedStatement));
    [intros (Ha & Hb & Hc); split; [exact Ha|]; split; [exact Hb|];
     split; [exact Hc|exact Hfirst]|].
  assert (Hlt : get_line_type s = inl MalformedStatement)
    by (unfold get_line_type; rewrite H1, H2, H3, H4, H5; reflexivity).
  assert (Hc : component_from_line s = inl MalformedStatement)
    by (unfold component_from_line; rewrite Hlt; reflexivity).
  split; [exact Hlt|]. split.
  - intros comps Hcomps. destruct (get_components_inr _ _ Hcomps) as [cs Hcs].
    pose proof (map_res_Forall2 _ _ _ Hcs) as HF.
    destruct (Forall2_in_left _ _ s HF) as [c Hc'].
    + rewrite Hst. apply in_or_app. right. left. reflexivity.
    + congruence.
  - intros Hpre. apply get_components_err. rewrite Hst.
    apply map_res_first_err; [exact Hpre|exact Hc].
Qed.

Lemma get_components_unknown_statement_witness :
  statements (txt "var a; foo; maximize o: a;") = [txt "var a"] ++ txt "foo" :: [txt "maximize o: a"] /\
  get_line_type (txt "foo") = inl MalformedStatement /\
  (forall comps, get_components (txt "var a; foo; maximize o: a;") <> inr comps) /\
  ((forall t, In t [txt "var a"] -> well_formed t) ->
   get_components (txt "var a; foo; maximize o: a;") = inl MalformedStatement) /\
  ((exists t, In t [txt "var a"] /\ ~ well_formed t) ->
   exists pre1 t post1 e, [txt "var a"] = pre1 ++ t :: post1 /\
     (forall u, In u pre1 -> well_formed u) /\
     component_from_line t = inl e /\
     get_components (txt "var a; foo; maximize o: a;") = inl e).
Proof.
  split; [vm_compute; reflexivity|].
  apply (get_components_unknown_statement _ [txt "var a"] (txt "foo") [txt "maximize o: a"]);
    vm_compute; reflexivity.
Defined.

(** ** The matcher: soundness and computation rules *)

Section Matcher.

Lemma prefixb_app (s l : text) : prefixb s (s ++ l) = true.
Proof. induction s as [|x s IH]; simpl; [reflexivity|]. rewrite Ascii.eqb_refl. exact IH. Qed.

Lemma prefixb_true (s l : text) : prefixb s l = true -> l = s ++ skipn (List.length s) l.
Proof.
  revert l; induction s as [|x s IH]; intros [|y l] H; simpl in *; try discriminate;
    [reflexivity|reflexivity|].
  apply andb_prop in H as [Hxy H]. apply Ascii.eqb_eq in Hxy as ->.
  f_equal. apply IH. exact H.
Qed.

Lemma first_some_some {A B : Type} (f : A -> option B) xs v :
  first_some f xs = Some v -> exists x, In x xs /\ f x = Some v.
Proof.
  induction xs as [|x xs IH]; simpl; [discriminate|].
  destruct (f x) eqn:E.
  - intros H. injection H as <-. exists x. split; [left|]; auto.
  - intros H. destruct (IH H) as [y [Hy Hfy]]. exists y. split; [right|]; auto.
Qed.

Lemma in_candidates g m n j : In j (candidates g m n) -> m <= j <= n.
Proof.
  unfold candidates. intros H.
  assert (H' : In j (seq m (S n - m))) by (destruct g; [apply in_rev|]; exact H).
  apply in_seq in H'. lia.
Qed.

Lemma span_le p l : span p l <= List.length l.
Proof. induction l as [|x l IH]; simpl; [lia|]. destruct (p x); simpl; lia. Qed.

Lemma span_firstn p l j :
  j <= span p l -> Forall (fun x => p x = true) (firstn j l).
Proof.
  revert j; induction l as [|x l IH]; intros [|j] Hj; simpl in *; auto.
  destruct (p x) eqn:E; [|lia]. constructor; [exact E|]. apply IH. lia.
Qed.

Lemma firstn_diff (w l : text) :
  firstn (List.length (w ++ l) - List.length l) (w ++ l) = w.
Proof.
  rewrite length_app, Nat.add_sub. rewrite firstn_app, Nat.sub_diag.
  rewrite firstn_all, firstn_O, app_nil_r. reflexivity.
Qed.

(** Every success of [mt] comes from a match of [r] on a prefix of the text. *)
Lemma mt_sound (r : re) : forall l c k v,
  mt r l c k = Some v ->
  exists w l' d, l = w ++ l' /\ matches r w d /\ k l' (d ++ c) = Some v.
Proof.
  induction r as [s|p|r1 IH1 r2 IH2|r1 IH1 r2 IH2|r1 IH1|g p m|n r1 IH1];
    intros l c k v H; simpl in H.
  - destruct (prefixb s l) eqn:E; [|discriminate].
    exists s, (skipn (List.length s) l), []. split; [apply prefixb_true; exact E|].
    split; [constructor|exact H].
  - destruct l as [|x l]; [discriminate|]. destruct (p x) eqn:E; [|discriminate].
    exists [x], l, []. split; [reflexivity|]. split; [constructor; exact E|exact H].
  - destruct (IH1 _ _ _ _ H) as [w1 [l1 [d1 [-> [Hm1 H1]]]]].
    destruct (IH2 _ _ _ _ H1) as [w2 [l2 [d2 [-> [Hm2 H2]]]]].
    exists (w1 ++ w2), l2, (d2 ++ d1). split; [apply app_assoc|].
    split; [constructor; assumption|]. rewrite <- app_assoc. exact H2.
  - destruct (mt r1 l c k) eqn:E.
    + injection H as <-. destruct (IH1 _ _ _ _ E) as [w [l' [d [-> [Hm Hk]]]]].
      exists w, l', d. split; [reflexivity|]. split; [apply m_alt_l; exact Hm|exact Hk].
    + destruct (IH2 _ _ _ _ H) as [w [l' [d [-> [Hm Hk]]]]].
      exists w, l', d. split; [reflexivity|]. split; [apply m_alt_r; exact Hm|exact Hk].
  - destruct (mt r1 l c k) eqn:E.
    + injection H as <-. destruct (IH1 _ _ _ _ E) as [w [l' [d [-> [Hm Hk]]]]].
      exists w, l', d. split; [reflexivity|]. split; [apply m_opt_some; exact Hm|exact Hk].
    + exists [], l, []. split; [reflexivity|]. split; [apply m_opt_none|exact H].
  - destruct (first_some_some _ _ _ H) as [j [Hj Hk]].
    apply in_candidates in Hj.
    exists (firstn j l), (skipn j l), []. split; [symmetry; apply firstn_skipn|].
    split; [|exact Hk]. constructor.
    + apply span_firstn. lia.
    + rewrite length_firstn. pose proof (span_le p l). lia.
  - destruct (IH1 _ _ _ _ H) as [w [l' [d [-> [Hm Hk]]]]].
    exists w, l', ((n, w) :: d). split; [reflexivity|].
    split; [constructor; exact Hm|]. rewrite firstn_diff in Hk. exact Hk.
Qed.

(** [captures] returns the captures of a match somewhere in the text. *)
Lemma captures_sound (r : re) l c :
  captures r l = Some c -> exists pre w post, l = pre ++ w ++ post /\ matches r w c.
Proof.
  induction l as [|x l IH]; intros H; simpl in H;
    destruct (mt r _ [] (fun _ c => Some c)) eqn:E.
  - injection H as <-. destruct (mt_sound _ _ _ _ _ E) as [w [l' [d [-> [Hm Hk]]]]].
    injection Hk as <-. rewrite app_nil_r. exists [], w, l'. auto.
  - discriminate.
  - injection H as <-. destruct (mt_sound _ _ _ _ _ E) as [w [l' [d [Hl [Hm Hk]]]]].
    injection Hk as <-. rewrite app_nil_r. exists [], w, l'. auto.
  - destruct (IH H) as [pre [w [post [-> Hm]]]]. exists (x :: pre), w, post. auto.
Qed.

(** Computation rules for the patterns met at the start of the text. *)
Lemma mt_lit_app s l c k : mt (Lit s) (s ++ l) c k = k l c.
Proof.
  simpl. rewrite prefixb_app. f_equal.
  rewrite skipn_app, skipn_all, Nat.sub_diag. reflexivity.
Qed.

Lemma span_app p w l :
  Forall (fun x => p x = true) w ->
  match l with [] => True | x :: _ => p x = false end ->
  span p (w ++ l) = List.length w.
Proof.
  intros Hw Hl. induction Hw as [|x w Hx _ IH]; simpl.
  - destruct l as [|y l]; [reflexivity|]. simpl. rewrite Hl. reflexivity.
  - rewrite Hx, IH. reflexivity.
Qed.

(** A greedy repetition takes the longest run when the rest then succeeds. *)
Lemma mt_rep_greedy p m w l c k v :
  Forall (fun x => p x = true) w ->
  match l with [] => True | x :: _ => p x = false end ->
  m <= List.length w -> k l c = Some v ->
  mt (Rep true p m) (w ++ l) c k = Some v.
Proof.
  intros Hw Hl Hm Hk. cbn [mt]. rewrite (span_app _ _ _ Hw Hl).
  unfold candidates.
  replace (S (List.length w) - m) with (S (List.length w - m)) by lia.
  rewrite seq_S, rev_app_distr. simpl.
  replace (m + (List.length w - m)) with (List.length w) by lia.
  rewrite skipn_app, skipn_all, Nat.sub_diag. simpl. rewrite Hk. reflexivity.
Qed.

(** A repetition that may match nothing, followed by a continuation that
    succeeds everywhere with the same value, gives that value. *)
Lemma mt_rep_zero g p l c k v :
  (forall l', k l' c = Some v) -> mt (Rep g p 0) l c k = Some v.
Proof.
  intros Hk. cbn [mt]. unfold candidates. rewrite Nat.sub_0_r.
  destruct g.
  - rewrite seq_S, rev_app_distr. simpl. rewrite Hk. reflexivity.
  - simpl. rewrite Hk. reflexivity.
Qed.

Lemma mt_seq r1 r2 l c k : mt (Seq r1 r2) l c k = mt r1 l c (fun l' c' => mt r2 l' c' k).
Proof. reflexivity. Qed.

Lemma mt_grp n r l c k :
  mt (Grp n r) l c k =
  mt r l c (fun l' c' => k l' ((n, firstn (List.length l - List.length l') l) :: c')).
Proof. reflexivity. Qed.

(** The leftmost match is at the start when there is one there. *)
Lemma captures_at_start r l c :
  mt r l [] (fun _ c => Some c) = Some c -> captures r l = Some c.
Proof. destruct l; simpl; intros ->; reflexivity. Qed.

(** Inversion of [matches] at each constructor. *)
Lemma matches_seq_inv r1 r2 w d :
  matches (Seq r1 r2) w d ->
  exists w1 w2 d1 d2, w = w1 ++ w2 /\ d = d2 ++ d1 /\ matches r1 w1 d1 /\ matches r2 w2 d2.
Proof. inversion 1; subst. eauto 10. Qed.

Lemma matches_lit_inv s w d : matches (Lit s) w d -> w = s /\ d = [].
Proof. inversion 1; auto. Qed.

Lemma matches_grp_inv n r w d :
  matches (Grp n r) w d -> exists d', d = (n, w) :: d' /\ matches r w d'.
Proof. inversion 1; subst. eauto. Qed.

Lemma matches_rep_inv g p m w d :
  matches (Rep g p m) w d ->
  Forall (fun x => p x = true) w /\ m <= List.length w /\ d = [].
Proof. inversion 1; auto. Qed.

Lemma matches_alt_inv r1 r2 w d :
  matches (Alt r1 r2) w d -> matches r1 w d \/ matches r2 w d.
Proof. inversion 1; auto. Qed.

Lemma matches_opt_inv r w d :
  matches (Opt r) w d -> matches r w d \/ (w = [] /\ d = []).
Proof. inversion 1; auto. Qed.

End Matcher.

(** ** Declarations *)

Lemma word_not_space x : is_word x = true -> is_space x = false.
Proof.
  unfold is_word, is_digit, is_space. intros H.
  repeat rewrite ?orb_true_iff, ?andb_true_iff, ?Nat.leb_le, ?Nat.eqb_eq in H.
  apply not_true_iff_false.
  rewrite orb_true_iff, andb_true_iff, !Nat.leb_le, Nat.eqb_eq. lia.
Qed.

(** C9: on a statement [var <ws> <identifier>] (optionally followed by text
    that does not continue the identifier, such as the [";"] of ["var a;"]),
    the declaration parser returns the identifier with coefficient [0]. *)
Theorem parse_variable_declaration_var (ws ident rest : text) :
  ws <> [] -> Forall (fun x => is_space x = true) ws ->
  ident <> [] -> Forall (fun x => is_word x = true) ident ->
  match rest with [] => True | x :: _ => is_word x = false end ->
  parse_variable_declaration (txt "var" ++ ws ++ ident ++ rest) = inr (mkVariable ident 0).
Proof.
  intros Hws Hs Hid Hw Hr.
  assert (Hm : mt variable_declaration_regex (txt "var" ++ ws ++ ident ++ rest) []
                 (fun _ c => Some c) = Some [("name"%string, ident)]).
  { unfold variable_declaration_regex, seqs. cbn [fold_right].
    rewrite mt_seq, mt_lit_app. cbv beta. rewrite mt_seq.
    apply mt_rep_greedy; [exact Hs| |destruct ws; [congruence|simpl; lia]|].
    - destruct ident as [|x ident]; [congruence|]. simpl.
      apply word_not_space. inversion Hw; assumption.
    - rewrite mt_seq, mt_grp. apply mt_rep_greedy; [exact Hw|exact Hr| |].
      + destruct ident; [congruence|simpl; lia].
      + cbv beta. rewrite firstn_diff, mt_seq. apply mt_rep_zero.
        intros l'. reflexivity. }
  unfold parse_variable_declaration. rewrite (captures_at_start _ _ _ Hm).
  reflexivity.
Qed.

Lemma parse_variable_declaration_var_witness :
  txt " " <> [] /\ Forall (fun x => is_space x = true) (txt " ") /\
  txt "a" <> [] /\ Forall (fun x => is_word x = true) (txt "a") /\
  parse_variable_declaration (txt "var" ++ txt " " ++ txt "a" ++ txt ";")
  = inr (mkVariable (txt "a") 0).
Proof.
  split; [discriminate|]. split; [repeat constructor|].
  split; [discriminate|]. split; [repeat constructor|].
  apply parse_variable_declaration_var;
    [discriminate|repeat constructor|discriminate|repeat constructor|reflexivity].
Defined.

(** The test [parse_variable_declaration_test]: ["var a;"] gives [a] with [0.]. *)
Example parse_variable_declaration_test :
  parse_variable_declaration (txt "var a;") = inr (mkVariable (txt "a") 0).
Proof. vm_compute. reflexivity. Qed.

(** ** Constraints *)

Ltac inv_matches :=
  repeat match goal with
  | H : matches (Seq _ _) _ _ |- _ =>
      apply matches_seq_inv in H; destruct H as (? & ? & ? & ? & ? & ? & ? & ?); subst
  | H : matches (Lit _) _ _ |- _ => apply matches_lit_inv in H; destruct H; subst
  | H : matches (Grp _ _) _ _ |- _ =>
      apply matches_grp_inv in H; destruct H as (? & ? & ?); subst
  | H : matches (Rep _ _ _) _ _ |- _ =>
      apply matches_rep_inv in H; destruct H as (? & ? & ?); subst
  | H : matches (Opt _) _ _ |- _ =>
      apply matches_opt_inv in H; destruct H as [H | [? ?]]; subst
  | H : matches (Alt _ _) _ _ |- _ => apply matches_alt_inv in H; destruct H as [H | H]
  end.

(** The shape of every match of [constraint_regex]. *)
Lemma constraint_regex_inv w d :
  matches constraint_regex w d ->
  exists nm s1 terms s2 tok s3 cst s4,
    w = txt "subject to " ++ nm ++ txt ":" ++ s1 ++ terms ++ s2 ++ tok ++ s3 ++ cst ++ s4 /\
    Forall (fun x => not_in (txt "=><") x = true) terms /\ terms <> [] /\
    Forall (fun x => is_space x = true) s2 /\
    In tok [txt "=="; txt "<="; txt ">="] /\
    Forall (fun x => is_space x = true) s3 /\
    (exists x cst', cst = x :: cst' /\ is_digit x = true) /\
    cap d "type" = Some tok.
Proof.
  unfold constraint_regex, number_re, seqs. cbn [fold_right]. intros H.
  inv_matches.
  all: rewrite ?app_nil_r.
  all: do 8 eexists; split; [reflexivity|].
  all: split; [assumption|].
  all: split; [match goal with
               | H : 1 <= List.length ?l |- ?l <> [] =>
                   destruct l; [simpl in H; lia|discriminate]
               end|].
  all: split; [assumption|]; split; [simpl; tauto|]; split; [assumption|].
  all: split; [|reflexivity].
  all: match goal with
       | H : Forall (fun x => is_digit x = true) ?l, H' : 1 <= List.length ?l |- _ =>
           destruct l as [|a l]; [simpl in H'; lia|];
           inversion H; subst; do 2 eexists; split; [reflexivity|assumption]
       end.
Qed.

Lemma parse_constraint_caps s con :
  parse_constraint s = inr con ->
  exists caps ty, captures constraint_regex s = Some caps /\ cap caps "type" = Some ty /\
    relation con = (if contains ty (txt "<") then LessThanOrEqual
                    else if contains ty (txt ">") then GreaterThanOrEqual
                    else Equal).
Proof.
  unfold parse_constraint, group, unwrap.
  destruct (captures constraint_regex s) as [c|]; simpl; [|discriminate].
  destruct (cap c "name"); simpl; [|discriminate].
  destruct (cap c "type") as [ty|] eqn:Ety; simpl; [|discriminate].
  destruct (cap c "constant"); simpl; [|discriminate].
  destruct (parse_f64 _); simpl; [|discriminate].
  destruct (cap c "terms"); simpl; [|discriminate].
  destruct (parse_objective_vars _); simpl; [discriminate|].
  intros H. injection H as <-. exists c, ty. auto.
Qed.

(** C4: in every constraint that parses, the operator token is one of
    ["<="], [">="], ["=="], and the relation is chosen by substring: a token
    containing ['<'] gives [LessThanOrEqual], else one containing ['>'] gives
    [GreaterThanOrEqual], else [Equal]; so ["<="], [">="], ["=="] give
    [LessThanOrEqual], [GreaterThanOrEqual], [Equal]. *)
Theorem parse_constraint_relation (s : text) (con : Constraint) :
  parse_constraint s = inr con ->
  exists caps tok, captures constraint_regex s = Some caps /\ cap caps "type" = Some tok /\
    In tok [txt "<="; txt ">="; txt "=="] /\
    (contains tok (txt "<") = true -> relation con = LessThanOrEqual) /\
    (contains tok (txt "<") = false -> contains tok (txt ">") = true ->
     relation con = GreaterThanOrEqual) /\
    (contains tok (txt "<") = false -> contains tok (txt ">") = false ->
     relation con = Equal) /\
    (tok = txt "<=" -> relation con = LessThanOrEqual) /\
    (tok = txt ">=" -> relation con = GreaterThanOrEqual) /\
    (tok = txt "==" -> relation con = Equal).
Proof.
  intros H. destruct (parse_constraint_caps _ _ H) as [c [ty [Hc [Hty Hrel]]]].
  exists c, ty. split; [exact Hc|]. split; [exact Hty|].
  destruct (captures_sound _ _ _ Hc) as [x [w [y [_ Hm]]]].
  destruct (constraint_regex_inv _ _ Hm)
    as (nm & s1 & terms & s2 & tok & s3 & cst & s4 & _ & _ & _ & _ & Htok & _ & _ & Hty').
  rewrite Hty in Hty'. injection Hty' as <-.
  rewrite Hrel.
  split; [simpl in *; tauto|].
  simpl in Htok. destruct Htok as [<-|[<-|[<-|[]]]];
    repeat split; intros Hx; simpl in *; try discriminate; reflexivity.
Qed.

Lemma parse_constraint_relation_witness :
  parse_constraint (txt "subject to c: a <= 3")
  = inr (mkConstraint (txt "c") [mkVariable (txt "a") 1] 3 LessThanOrEqual) /\
  exists caps tok, captures constraint_regex (txt "subject to c: a <= 3") = Some caps /\
    cap caps "type" = Some tok /\
    In tok [txt "<="; txt ">="; txt "=="] /\
    (contains tok (txt "<") = true -> LessThanOrEqual = LessThanOrEqual) /\
    (contains tok (txt "<") = false -> contains tok (txt ">") = true ->
     LessThanOrEqual = GreaterThanOrEqual) /\
    (contains tok (txt "<") = false -> contains tok (txt ">") = false ->
     LessThanOrEqual = Equal) /\
    (tok = txt "<=" -> LessThanOrEqual = LessThanOrEqual) /\
    (tok = txt ">=" -> LessThanOrEqual = GreaterThanOrEqual) /\
    (tok = txt "==" -> LessThanOrEqual = Equal).
Proof.
  assert (H : parse_constraint (txt "subject to c: a <= 3")
              = inr (mkConstraint (txt "c") [mkVariable (txt "a") 1] 3 LessThanOrEqual))
    by (vm_compute; reflexivity).
  split; [exact H|].
  exact (parse_constraint_relation _ _ H).
Defined.

(** The three tokens of the specification, each in a parsed constraint. *)
Example parse_constraint_tokens :
  parse_constraint (txt "subject to c: a >= 3")
  = inr (mkConstraint (txt "c") [mkVariable (txt "a") 1] 3 GreaterThanOrEqual) /\
  parse_constraint (txt "subject to c: a == 3")
  = inr (mkConstraint (txt "c") [mkVariable (txt "a") 1] 3 Equal).
Proof. vm_compute. split; reflexivity. Qed.

(** *** A constant with a sign *)

Lemma space_not_op x : is_space x = true -> not_in (txt "=><") x = true.
Proof.
  intros H. unfold not_in. simpl.
  destruct (Ascii.eqb_spec x "="%char) as [->|_]; [discriminate|].
  destruct (Ascii.eqb_spec x ">"%char) as [->|_]; [discriminate|].
  destruct (Ascii.eqb_spec x "<"%char) as [->|_]; [discriminate|].
  reflexivity.
Qed.

Lemma digit_not_space x : is_digit x = true -> is_space x = false.
Proof.
  unfold is_digit, is_space. intros H.
  rewrite andb_true_iff, !Nat.leb_le in H.
  apply not_true_iff_false. rewrite orb_true_iff, andb_true_iff, !Nat.leb_le, Nat.eqb_eq.
  lia.
Qed.

(** Two decompositions around a two-character operator agree when the
    operator characters occur nowhere else. *)
Lemma align_op (A P R1 R2 : text) a t1 t2 o1 o2 :
  (A ++ [a]) ++ t1 :: t2 :: R1 = P ++ o1 :: o2 :: R2 ->
  not_in (txt "=><") a = true ->
  not_in (txt "=><") t1 = false -> not_in (txt "=><") o1 = false ->
  Forall (fun x => not_in (txt "=><") x = true) P ->
  Forall (fun x => not_in (txt "=><") x = true) R2 ->
  R1 = R2.
Proof.
  intros H Ha Ht1 Ho1 HP HR.
  apply app_eq_app in H as [m [[HA Hm]|[HP' Hm]]].
  - destruct m as [|y [|z m]].
    + simpl in Hm. congruence.
    + simpl in Hm. injection Hm as -> _ _.
      apply app_inj_tail in HA as [_ ->]. congruence.
    + simpl in Hm. injection Hm as -> -> HR2. subst R2.
      apply Forall_app in HR as [_ HR]. inversion HR. congruence.
  - destruct m as [|y m].
    + simpl in Hm. congruence.
    + simpl in Hm. injection Hm as -> _. subst P.
      apply Forall_app in HP as [_ HP]. inversion HP. congruence.
Qed.

(** Two decompositions into blanks and a non-blank character agree on it. *)
Lemma align_space (u v X Y : text) d e :
  u ++ d :: X = v ++ e :: Y ->
  Forall (fun x => is_space x = true) u -> Forall (fun x => is_space x = true) v ->
  is_space d = false -> is_space e = false -> d = e.
Proof.
  intros H Hu Hv Hd He.
  apply app_eq_app in H as [m [[-> Hm]|[-> Hm]]].
  - destruct m as [|y m]; simpl in Hm; [congruence|].
    injection Hm as -> _. apply Forall_app in Hu as [_ Hu]. inversion Hu. congruence.
  - destruct m as [|y m]; simpl in Hm; [congruence|].
    injection Hm as -> _. apply Forall_app in Hv as [_ Hv]. inversion Hv. congruence.
Qed.

Lemma constraint_regex_signed (pre op ws rest : text) sg :
  Forall (fun x => not_in (txt "=><") x = true) pre ->
  In op [txt "=="; txt "<="; txt ">="] ->
  Forall (fun x => is_space x = true) ws ->
  In sg ["-"%char; "+"%char] ->
  Forall (fun x => not_in (txt "=><") x = true) rest ->
  captures constraint_regex (pre ++ op ++ ws ++ sg :: rest) = None.
Proof.
  intros Hpre Hop Hws Hsg Hrest.
  destruct (captures constraint_regex _) as [c|] eqn:E; [exfalso|reflexivity].
  apply captures_sound in E as (x & w & y & Hs & Hm).
  apply constraint_regex_inv in Hm as (nm & s1 & terms & s2 & tok & s3 & cst & s4 &
    -> & Ht & Htne & Hs2 & Htok & Hs3 & (d0 & cst' & -> & Hd) & _).
  assert (Hts : Forall (fun x => not_in (txt "=><") x = true) (terms ++ s2)).
  { apply Forall_app. split; [exact Ht|].
    eapply Forall_impl; [|exact Hs2]. intros z. apply space_not_op. }
  assert (Hne : terms ++ s2 <> []) by (destruct terms; [congruence|discriminate]).
  destruct (exists_last Hne) as [L [a Ha]].
  assert (Hna : not_in (txt "=><") a = true).
  { rewrite Ha in Hts. apply Forall_app in Hts as [_ Hts]. inversion Hts. assumption. }
  assert (Htk : exists t1 t2, tok = [t1; t2] /\ not_in (txt "=><") t1 = false)
    by (simpl in Htok; destruct Htok as [<-|[<-|[<-|[]]]]; eauto).
  assert (Hok : exists o1 o2, op = [o1; o2] /\ not_in (txt "=><") o1 = false)
    by (simpl in Hop; destruct Hop as [<-|[<-|[<-|[]]]]; eauto).
  destruct Htk as (t1 & t2 & -> & Ht1). destruct Hok as (o1 & o2 & -> & Ho1).
  assert (Heq : ((x ++ txt "subject to " ++ nm ++ txt ":" ++ s1 ++ L) ++ [a])
                  ++ t1 :: t2 :: (s3 ++ d0 :: cst' ++ s4 ++ y)
                = pre ++ o1 :: o2 :: (ws ++ sg :: rest)).
  { replace (pre ++ o1 :: o2 :: ws ++ sg :: rest)
      with (pre ++ [o1; o2] ++ ws ++ sg :: rest) by reflexivity.
    rewrite Hs.
    assert (HZ : forall Z, terms ++ s2 ++ Z = L ++ a :: Z)
      by (intros Z; rewrite app_assoc, Ha, <- app_assoc; reflexivity).
    rewrite <- !app_assoc. simpl.
    rewrite HZ. reflexivity. }
  assert (HR2 : Forall (fun x => not_in (txt "=><") x = true) (ws ++ sg :: rest)).
  { apply Forall_app. split.
    - eapply Forall_impl; [|exact Hws]. intros z. apply space_not_op.
    - constructor; [|exact Hrest]. simpl in Hsg. destruct Hsg as [<-|[<-|[]]]; reflexivity. }
  pose proof (align_op _ _ _ _ _ _ _ _ _ Heq Hna Ht1 Ho1 Hpre HR2) as HR.
  assert (Hsp : is_space sg = false)
    by (simpl in Hsg; destruct Hsg as [<-|[<-|[]]]; reflexivity).
  pose proof (align_space _ _ _ _ _ _ HR Hs3 Hws (digit_not_space _ Hd) Hsp) as ->.
  simpl in Hsg. destruct Hsg as [<-|[<-|[]]]; discriminate.
Qed.

(** C10: a constraint statement whose constant carries a sign, i.e.
    [pre op ws sg rest] with [op] one of the three operators, [sg] one of
    ['-'], ['+'] and no operator character in [pre] or [rest], has no match of
    [constraint_regex]: the constant is not extracted, [parse_constraint]
    fails, and every document holding it as a constraint statement fails to
    parse. *)
Theorem parse_constraint_signed_constant (doc : text) pre_st post_st
    (pre op ws rest : text) (sg : ascii) :
  Forall (fun x => not_in (txt "=><") x = true) pre ->
  In op [txt "=="; txt "<="; txt ">="] ->
  Forall (fun x => is_space x = true) ws ->
  In sg ["-"%char; "+"%char] ->
  Forall (fun x => not_in (txt "=><") x = true) rest ->
  statements doc = pre_st ++ (pre ++ op ++ ws ++ sg :: rest) :: post_st ->
  get_line_type (pre ++ op ++ ws ++ sg :: rest) = inr LT_Constraint ->
  captures constraint_regex (pre ++ op ++ ws ++ sg :: rest) = None /\
  parse_constraint (pre ++ op ++ ws ++ sg :: rest) = inl UnmatchedPattern /\
  (forall comps, get_components doc <> inr comps).
Proof.
  intros Hpre Hop Hws Hsg Hrest Hst Hlt.
  pose proof (constraint_regex_signed _ _ _ _ _ Hpre Hop Hws Hsg Hrest) as Hn.
  assert (Hp : parse_constraint (pre ++ op ++ ws ++ sg :: rest) = inl UnmatchedPattern)
    by (unfold parse_constraint; rewrite Hn; reflexivity).
  split; [exact Hn|]. split; [exact Hp|].
  intros comps Hcomps. destruct (get_components_inr _ _ Hcomps) as [cs Hcs].
  pose proof (map_res_Forall2 _ _ _ Hcs) as HF.
  destruct (Forall2_in_left _ _ (pre ++ op ++ ws ++ sg :: rest) HF) as [c Hc].
  - rewrite Hst. apply in_or_app. right. left. reflexivity.
  - unfold component_from_line in Hc. rewrite Hlt in Hc. simpl in Hc.
    rewrite Hp in Hc. discriminate.
Qed.


Lemma parse_constraint_signed_constant_witness :
  statements doc_signed_constant
  = [txt "var a"; txt "maximize o: a"] ++ (txt "subject to c: a " ++ txt "<=" ++ txt " " ++ "-"%char :: txt "5") :: [] /\
  get_line_type (txt "subject to c: a " ++ txt "<=" ++ txt " " ++ "-"%char :: txt "5")
  = inr LT_Constraint /\
  captures constraint_regex (txt "subject to c: a " ++ txt "<=" ++ txt " " ++ "-"%char :: txt "5") = None /\
  parse_constraint (txt "subject to c: a " ++ txt "<=" ++ txt " " ++ "-"%char :: txt "5")
  = inl UnmatchedPattern /\
  (forall comps, get_components doc_signed_constant <> inr comps).
Proof.
  assert (Hst : statements doc_signed_constant
    = [txt "var a"; txt "maximize o: a"] ++ (txt "subject to c: a " ++ txt "<=" ++ txt " " ++ "-"%char :: txt "5") :: [])
    by (vm_compute; reflexivity).
  assert (Hlt : get_line_type (txt "subject to c: a " ++ txt "<=" ++ txt " " ++ "-"%char :: txt "5")
    = inr LT_Constraint) by (vm_compute; reflexivity).
  split; [exact Hst|]. split; [exact Hlt|].
  apply (parse_constraint_signed_constant doc_signed_constant
           [txt "var a"; txt "maximize o: a"] [] (txt "subject to c: a ")
           (txt "<=") (txt " ") (txt "5") "-"%char);
    [repeat constructor|simpl; tauto|repeat constructor|simpl; tauto
    |repeat constructor|exact Hst|exact Hlt].
Defined.

(** ** Terms *)

(** C3 (the code at the failing input): the sign group of [variable_regex]
    sits inside the optional coefficient group, so a minus sign with no
    coefficient is skipped by the search and the name gets coefficient
    [1], not [-1]. *)
Theorem parse_variable_minus_name :
  parse_variable (txt "-a") = inr (mkVariable (txt "a") 1) /\
  parse_objective_vars (txt "b + -a")
  = inr [mkVariable (txt "b") 1; mkVariable (txt "a") 1].
Proof. vm_compute. split; reflexivity. Qed.

(** With a coefficient the sign is taken: ["-1*a"] gives [-1]. *)
Example parse_variable_minus_coefficient :
  parse_variable (txt "-1*a") = inr (mkVariable (txt "a") (-1)).
Proof. vm_compute. reflexivity. Qed.

(** C2 (the code on the examples of the specification and at the failing
    input): the examples give the listed terms, in order, but ["c + -a"]
    stores [1] for [-a]. *)
Theorem parse_objective_vars_examples :
  parse_objective_vars (txt "3.5*a + 1.5*b + -0.5*c")
  = inr [mkVariable (txt "a") (7 # 2); mkVariable (txt "b") (3 # 2);
         mkVariable (txt "c") (-1 # 2)] /\
  parse_objective_vars (txt "a + b")
  = inr [mkVariable (txt "a") 1; mkVariable (txt "b") 1] /\
  parse_objective_vars (txt "c + -a")
  = inr [mkVariable (txt "c") 1; mkVariable (txt "a") 1].
Proof. vm_compute. repeat split; reflexivity. Qed.

(** ** Classification *)

(** C8 (as stated, refuted): the constraint statement
    ["subject to var_limit: a <= 5"] is classified as a declaration, and a
    document holding it fails to parse. *)
Lemma get_line_type_var_in_name_counterexample :
  get_line_type (txt "subject to var_limit: a <= 5") = inr LT_Variable /\
  get_line_type (txt "subject to var_limit: a <= 5") <> inr LT_Constraint /\
  get_components (txt "maximize o: a; subject to var_limit: a <= 5;")
  = inl UnmatchedPattern.
Proof. vm_compute. split; [reflexivity|]. split; [discriminate|reflexivity]. Qed.

(** C8 (amended): a statement without ["#"] whose text contains ["var"]
    anywhere, a constraint whose name contains it included, is classified
    as a declaration and never yields a [Constraint] record. *)
Theorem get_line_type_var_first (s : text) :
  contains s (txt "#") = false -> contains s (txt "var") = true ->
  get_line_type s = inr LT_Variable /\
  (forall con, component_from_line s <> inr (C_Constraint con)).
Proof.
  intros H1 H2.
  assert (Hlt : get_line_type s = inr LT_Variable)
    by (unfold get_line_type; rewrite H1, H2; reflexivity).
  split; [exact Hlt|]. intros con Hc.
  apply component_kind in Hc. rewrite Hlt in Hc. discriminate.
Qed.

Lemma get_line_type_var_first_witness :
  contains (txt "subject to var_limit: a <= 5") (txt "#") = false /\
  contains (txt "subject to var_limit: a <= 5") (txt "var") = true /\
  get_line_type (txt "subject to var_limit: a <= 5") = inr LT_Variable /\
  (forall con, component_from_line (txt "subject to var_limit: a <= 5")
               <> inr (C_Constraint con)).
Proof.
  split; [vm_compute; reflexivity|]. split; [vm_compute; reflexivity|].
  apply get_line_type_var_first; vm_compute; reflexivity.
Defined.

(** ** The end-to-end example of the specification *)

Example get_components_advertising :
  match get_components doc_advertising with
  | inr comps =>
      List.length (variables comps) = 3 /\ List.length (constraints comps) = 4 /\
      maximize (objective comps) = true /\
      o_variables (objective comps)
      = [mkVariable (txt "television") 100000; mkVariable (txt "newspaper") 40000;
         mkVariable (txt "radio") 18000]
  | inl _ => False
  end.
Proof. vm_compute. repeat split; reflexivity. Qed.

(** * Further properties of the parser

    Facts about the text functions, the regexes and the parsing functions
    beyond the properties of the specification. *)


Section TextFacts.

Lemma split_nonempty sep l : split sep l <> [].
Proof.
  induction l as [|x l IH]; simpl; [discriminate|].
  destruct (Ascii.eqb x sep); [discriminate|].
  destruct (split sep l); discriminate.
Qed.

Lemma split_app_sep sep a b :
  split sep (a ++ sep :: b) = split sep a ++ split sep b.
Proof.
  induction a as [|x a IH]; simpl.
  - rewrite Ascii.eqb_refl. reflexivity.
  - rewrite IH. destruct (Ascii.eqb x sep); [reflexivity|].
    destruct (split sep a) as [|w ws] eqn:E; [exfalso; exact (split_nonempty _ _ E)|].
    reflexivity.
Qed.

Lemma split_no_sep sep l : ~ In sep l -> split sep l = [l].
Proof.
  induction l as [|x l IH]; intros H; simpl; [reflexivity|].
  destruct (Ascii.eqb_spec x sep) as [->|Hx]; [exfalso; apply H; left; reflexivity|].
  rewrite IH; [reflexivity|]. intros Hin; apply H; right; exact Hin.
Qed.

Lemma split_length sep l : List.length (split sep l) = count_occ ascii_dec l sep + 1.
Proof.
  induction l as [|x l IH]; simpl; [reflexivity|].
  destruct (Ascii.eqb_spec x sep) as [->|Hx].
  - destruct (ascii_dec sep sep); [|congruence]. simpl. rewrite IH. reflexivity.
  - destruct (ascii_dec x sep); [congruence|].
    destruct (split sep l) as [|w ws]; simpl in *; lia.
Qed.

Lemma split_pieces sep l p :
  In p (split sep l) -> ~ In sep p /\ (forall x, In x p -> In x l).
Proof.
  revert p; induction l as [|x l IH]; intros p Hp; simpl in Hp.
  - destruct Hp as [<-|[]]. split; [intros []|intros _ []].
  - destruct (Ascii.eqb_spec x sep) as [->|Hx].
    + destruct Hp as [<-|Hp]; [split; [intros []|intros _ []]|].
      destruct (IH p Hp) as [H1 H2]. split; [exact H1|]. intros y Hy; right; auto.
    + destruct (split sep l) as [|w ws] eqn:E.
      * destruct Hp as [<-|[]]. split.
        -- intros [H|[]]. congruence.
        -- intros y [<-|[]]. left; reflexivity.
      * destruct Hp as [<-|Hp].
        -- destruct (IH w (or_introl eq_refl)) as [H1 H2]. split.
           ++ intros [H|H]; [congruence|contradiction].
           ++ intros y [<-|Hy]; [left; reflexivity|right; auto].
        -- destruct (IH p (or_intror Hp)) as [H1 H2]. split; [exact H1|].
           intros y Hy; right; auto.
Qed.

Lemma trim_start_spec l :
  exists sp, l = sp ++ trim_start l /\ Forall (fun x => is_space x = true) sp /\
    match trim_start l with [] => True | x :: _ => is_space x = false end.
Proof.
  induction l as [|x l IH]; simpl.
  - exists []. auto.
  - destruct (is_space x) eqn:E.
    + destruct IH as [sp [H1 [H2 H3]]]. exists (x :: sp).
      split; [simpl; f_equal; exact H1|]. split; [constructor; assumption|exact H3].
    + exists []. split; [reflexivity|]. split; [constructor|exact E].
Qed.

Lemma trim_spec l :
  exists sp1 sp2, l = sp1 ++ trim l ++ sp2 /\
    Forall (fun x => is_space x = true) sp1 /\ Forall (fun x => is_space x = true) sp2 /\
    match trim l with [] => True | x :: _ => is_space x = false end /\
    match rev (trim l) with [] => True | x :: _ => is_space x = false end.
Proof.
  unfold trim.
  destruct (trim_start_spec l) as [sp1 [H1 [H2 H3]]].
  destruct (trim_start_spec (rev (trim_start l))) as [sp2 [H4 [H5 H6]]].
  set (t := trim_start l) in *. set (u := trim_start (rev t)) in *.
  assert (Ht : t = rev u ++ rev sp2)
    by (rewrite <- rev_app_distr, <- H4, rev_involutive; reflexivity).
  exists sp1, (rev sp2). split; [rewrite <- Ht; exact H1|].
  split; [exact H2|]. split; [apply Forall_rev; exact H5|]. split.
  - rewrite Ht in H3. destruct (rev u) as [|x m]; [exact I|]. exact H3.
  - rewrite rev_involutive. exact H6.
Qed.

Lemma trim_sub l x : In x (trim l) -> In x l.
Proof.
  intros H. destruct (trim_spec l) as [sp1 [sp2 [E _]]]. rewrite E.
  apply in_or_app. right. apply in_or_app. left. exact H.
Qed.

Lemma trim_keeps l x : In x l -> is_space x = false -> In x (trim l).
Proof.
  intros H Hx. destruct (trim_spec l) as [sp1 [sp2 [E [H1 [H2 _]]]]].
  rewrite E in H. apply in_app_or in H as [H|H].
  - rewrite Forall_forall in H1. rewrite (H1 x H) in Hx. discriminate.
  - apply in_app_or in H as [H|H]; [exact H|].
    rewrite Forall_forall in H2. rewrite (H2 x H) in Hx. discriminate.
Qed.

Lemma trim_blank l : Forall (fun x => is_space x = true) l -> trim l = [].
Proof.
  intros H. unfold trim.
  assert (E : trim_start l = []).
  { induction H as [|x l Hx _ IH]; simpl; [reflexivity|]. rewrite Hx. exact IH. }
  rewrite E. reflexivity.
Qed.

Lemma contains_app (pre needle post : text) :
  contains (pre ++ needle ++ post) needle = true.
Proof.
  induction pre as [|x pre IH]; simpl.
  - destruct (needle ++ post) as [|y l] eqn:E; simpl;
      rewrite <- E, prefixb_app; reflexivity.
  - rewrite IH. apply orb_true_r.
Qed.

Lemma contains_one (l : text) x : In x l -> contains l [x] = true.
Proof.
  intros H. apply in_split in H as [pre [post ->]].
  exact (contains_app pre [x] post).
Qed.

Lemma statements_app (d1 d2 : text) :
  statements (d1 ++ ";"%char :: d2) = statements d1 ++ statements d2.
Proof. unfold statements. rewrite split_app_sep, map_app, filter_app. reflexivity. Qed.

End TextFacts.

Section MapRes.

Lemma bind_inr {A : Type} (m : result A) : bind m (fun x => inr x) = m.
Proof. destruct m; reflexivity. Qed.

Lemma map_res_app {A B : Type} (f : A -> result B) (a b : list A) :
  map_res f (a ++ b) = let* x := map_res f a in let* y := map_res f b in inr (x ++ y).
Proof.
  induction a as [|x a IH]; simpl.
  - symmetry. apply bind_inr.
  - rewrite IH. destruct (f x); simpl; [reflexivity|].
    destruct (map_res f a); simpl; [reflexivity|].
    destruct (map_res f b); reflexivity.
Qed.

End MapRes.

Section Buckets.

Lemma variables_of_app (a b : list Component) :
  variables_of (a ++ b) = variables_of a ++ variables_of b.
Proof. induction a as [|[] a IH]; simpl; congruence. Qed.

Lemma constraints_of_app (a b : list Component) :
  constraints_of (a ++ b) = constraints_of a ++ constraints_of b.
Proof. induction a as [|[] a IH]; simpl; congruence. Qed.

Lemma objectives_of_app (a b : list Component) :
  objectives_of (a ++ b) = objectives_of a ++ objectives_of b.
Proof. induction a as [|[] a IH]; simpl; congruence. Qed.

Lemma last_none_app (xs ys : list Objective) (a : option Objective) :
  ys <> [] ->
  last (a :: map Some (xs ++ ys)) None = last (None :: map Some ys) None.
Proof.
  intros Hy. revert a.
  induction xs as [|x xs IH]; intros a.
  - destruct ys; [congruence|reflexivity].
  - change (last (Some x :: map Some (xs ++ ys)) None = last (None :: map Some ys) None).
    apply IH.
Qed.

End Buckets.

Lemma component_variable (s : text) v :
  component_from_line s = inr (C_Variable v) -> parse_variable_declaration s = inr v.
Proof.
  unfold component_from_line. destruct (get_line_type s) as [e|[]]; simpl;
    try discriminate.
  - destruct (parse_variable_declaration s); simpl; [discriminate|].
    intros H; injection H as ->; reflexivity.
  - destruct (parse_constraint s); simpl; discriminate.
  - destruct (parse_objective s); simpl; discriminate.
Qed.

Lemma component_constraint (s : text) con :
  component_from_line s = inr (C_Constraint con) -> parse_constraint s = inr con.
Proof.
  unfold component_from_line. destruct (get_line_type s) as [e|[]]; simpl;
    try discriminate.
  - destruct (parse_variable_declaration s); simpl; discriminate.
  - destruct (parse_constraint s); simpl; [discriminate|].
    intros H; injection H as ->; reflexivity.
  - destruct (parse_objective s); simpl; discriminate.
Qed.

Lemma buckets_Forall2 stmts cs :
  Forall2 (fun x y => component_from_line x = inr y) stmts cs ->
  map_res parse_variable_declaration (filter (has_kind LT_Variable) stmts)
  = inr (variables_of cs) /\
  map_res parse_constraint (filter (has_kind LT_Constraint) stmts)
  = inr (constraints_of cs).
Proof.
  induction 1 as [|s c stmts cs Hc _ [IH1 IH2]]; [split; reflexivity|].
  assert (Hk : forall k, has_kind k s = LineType_eqb k (kind_of c))
    by (intros k; unfold has_kind; rewrite (component_kind _ _ Hc); reflexivity).
  cbn [filter]. rewrite !Hk.
  destruct c as [v|con|o|]; cbn [LineType_eqb kind_of variables_of constraints_of];
    split; try assumption.
  - cbn [map_res]. rewrite (component_variable _ _ Hc), IH1. reflexivity.
  - cbn [map_res]. rewrite (component_constraint _ _ Hc), IH2. reflexivity.
Qed.


Section Numbers.

Lemma number_re_nocaps t d : matches number_re t d -> d = [].
Proof. unfold number_re, seqs. cbn [fold_right]. intros H. inv_matches; reflexivity. Qed.

Lemma digits_value_nonneg l acc :
  (0 <= acc)%Z -> Forall (fun x => is_digit x = true) l -> (0 <= digits_value l acc)%Z.
Proof.
  intros Hacc H. revert acc Hacc. induction H as [|x l Hx _ IH]; intros acc Hacc; simpl.
  - exact Hacc.
  - apply IH. unfold is_digit in Hx. apply andb_prop in Hx as [H1 H2].
    apply Nat.leb_le in H1. lia.
Qed.

Lemma forallb_digits l : Forall (fun x => is_digit x = true) l -> forallb is_digit l = true.
Proof. intros H. apply forallb_forall. apply Forall_forall. exact H. Qed.

Lemma parse_f64_int ds :
  ds <> [] -> Forall (fun x => is_digit x = true) ds ->
  parse_f64 ds = Some (Qred (inject_Z (digits_value ds 0))).
Proof.
  intros Hne H. unfold parse_f64.
  assert (Hs : span is_digit ds = List.length ds)
    by (rewrite <- (app_nil_r ds) at 1; apply span_app; [exact H|exact I]).
  rewrite Hs, firstn_all, skipn_all. destruct ds; [congruence|reflexivity].
Qed.

Lemma parse_f64_frac ds fs :
  ds <> [] -> Forall (fun x => is_digit x = true) ds ->
  Forall (fun x => is_digit x = true) fs ->
  parse_f64 (ds ++ "."%char :: fs)
  = Some (Qred (Qmake (digits_value (ds ++ fs) 0)
                      (Z.to_pos (10 ^ Z.of_nat (List.length fs))))).
Proof.
  intros Hne H Hf. unfold parse_f64.
  assert (Hs : span is_digit (ds ++ "."%char :: fs) = List.length ds)
    by (apply span_app; [exact H|reflexivity]).
  rewrite Hs, firstn_app, skipn_app, firstn_all, skipn_all, Nat.sub_diag, firstn_O,
    skipn_O, app_nil_r.
  cbn [app]. rewrite (forallb_digits _ Hf).
  destruct ds; [congruence|reflexivity].
Qed.

Lemma Qred_nonneg q : (0 <= q)%Q -> (0 <= Qred q)%Q.
Proof. intros H. rewrite Qred_correct. exact H. Qed.

(** Every text matched by [\d+\.?\d*] parses as a non-negative number. *)
Lemma number_re_value t d :
  matches number_re t d -> exists q, parse_f64 t = Some q /\ (0 <= q)%Q.
Proof.
  unfold number_re, seqs. cbn [fold_right]. intros H. inv_matches.
  all: rewrite ?app_nil_r.
  all: match goal with
       | H : 1 <= List.length ?ds |- _ => assert (Hne : ds <> []) by (destruct ds; simpl in H; [lia|discriminate])
       end.
  - eexists. split; [apply parse_f64_frac; assumption|].
    apply Qred_nonneg. unfold Qle. simpl. rewrite Z.mul_1_r.
    apply digits_value_nonneg; [lia|]. apply Forall_app. split; assumption.
  - eexists. split; [apply parse_f64_int|].
    + destruct x; [congruence|discriminate].
    + apply Forall_app. split; assumption.
    + apply Qred_nonneg. unfold Qle. simpl. rewrite !Z.mul_1_r.
      apply digits_value_nonneg; [lia|]. apply Forall_app. split; assumption.
Qed.

End Numbers.

Lemma variable_regex_shape w d :
  matches variable_regex w d ->
  exists pre nm, w = pre ++ nm /\ cap d "name" = Some nm /\ nm <> [] /\
    Forall (fun x => is_word x = true) nm /\
    (cap d "sign" = None \/ (cap d "sign" = Some (txt "-") /\ In "-"%char pre)) /\
    (cap d "coeff" = None \/ exists t dn, cap d "coeff" = Some t /\ matches number_re t dn).
Proof.
  unfold variable_regex, seqs. cbn [fold_right]. intros H. inv_matches.
  all: try match goal with Hn : matches number_re _ ?dn |- _ =>
         pose proof (number_re_nocaps _ _ Hn) as Hz; subst dn end.
  all: match goal with H : Forall (fun x => is_word x = true) ?n |- _ => eexists _, n end.
  all: split; [rewrite !app_nil_r; reflexivity|]; simpl.
  all: split; [reflexivity|].
  all: split; [match goal with
               | H : 1 <= List.length ?l |- ?l <> [] =>
                   destruct l; [simpl in H; lia|discriminate]
               end|].
  all: split; [assumption|].
  - split; [right; split; [reflexivity|rewrite !in_app_iff; simpl; tauto]|].
    right. do 2 eexists. split; [reflexivity|eassumption].
  - split; [left; reflexivity|]. right. do 2 eexists. split; [reflexivity|eassumption].
  - split; left; reflexivity.
Qed.










Lemma parse_objective_vars_length (s : text) vs :
  parse_objective_vars s = inr vs -> List.length vs = count_occ ascii_dec s "+"%char + 1.
Proof.
  unfold parse_objective_vars. intros H. apply map_res_Forall2, Forall2_length in H.
  rewrite <- H, length_map. apply split_length.
Qed.

Lemma variable_declaration_regex_shape w d :
  matches variable_declaration_regex w d ->
  exists ws nm ws2, w = txt "var" ++ ws ++ nm ++ ws2 /\ cap d "name" = Some nm /\
    ws <> [] /\ Forall (fun x => is_space x = true) ws /\
    nm <> [] /\ Forall (fun x => is_word x = true) nm.
Proof.
  unfold variable_declaration_regex, seqs. cbn [fold_right]. intros H. inv_matches.
  match goal with
  | H1 : 1 <= List.length ?a, Ha : Forall (fun x => is_space x = true) ?a,
    Hb : Forall (fun x => is_word x = true) ?b,
    H3 : 0 <= List.length ?c |- _ => exists a, b, c
  end.
  split; [rewrite !app_nil_r; reflexivity|]. simpl.
  split; [reflexivity|].
  split; [match goal with
          | H : 1 <= List.length ?l, H' : Forall (fun x => is_space x = true) ?l |- ?l <> [] =>
              destruct l; [simpl in H; lia|discriminate]
          end|].
  split; [assumption|].
  split; [match goal with
          | H : 1 <= List.length ?l, H' : Forall (fun x => is_word x = true) ?l |- ?l <> [] =>
              destruct l; [simpl in H; lia|discriminate]
          end|assumption].
Qed.

Lemma objective_regex_shape w d :
  matches objective_regex w d ->
  exists ty ws1 nm ws2 ws3 eqn,
    w = ty ++ ws1 ++ nm ++ ws2 ++ txt ":" ++ ws3 ++ eqn /\
    In ty [txt "minimize"; txt "maximize"] /\
    cap d "type" = Some ty /\ cap d "name" = Some nm /\ cap d "equation" = Some eqn /\
    nm <> [] /\ Forall (fun x => is_word x = true) nm.
Proof.
  unfold objective_regex, seqs. cbn [fold_right]. intros H. inv_matches.
  all: rewrite !app_nil_r.
  all: do 6 eexists; split; [reflexivity|]; simpl.
  all: split; [auto|].
  all: do 3 (split; [reflexivity|]).
  all: split; [|assumption].
  all: match goal with
       | H : 1 <= List.length ?l, H' : Forall (fun x => is_word x = true) ?l |- ?l <> [] =>
           destruct l; [simpl in H; lia|discriminate]
       end.
Qed.

Lemma parse_objective_vars_nonempty (s : text) vs :
  parse_objective_vars s = inr vs -> vs <> [].
Proof.
  intros H. apply parse_objective_vars_length in H. destruct vs; [simpl in H; lia|discriminate].
Qed.

Lemma constraint_regex_shape w d :
  matches constraint_regex w d ->
  exists nm s1 terms rest t dn,
    w = txt "subject to " ++ nm ++ txt ":" ++ s1 ++ terms ++ rest /\
    Forall (fun x => is_word x = true) nm /\
    Forall (fun x => not_in (txt "=><") x = true) terms /\
    cap d "name" = Some nm /\ cap d "terms" = Some terms /\
    cap d "constant" = Some t /\ matches number_re t dn.
Proof.
  unfold constraint_regex, seqs. cbn [fold_right]. intros H. inv_matches.
  all: try match goal with Hn : matches number_re _ ?dn |- _ =>
         pose proof (number_re_nocaps _ _ Hn) as Hz; subst dn end.
  all: rewrite !app_nil_r.
  all: do 6 eexists; split; [reflexivity|].
  all: split; [assumption|]; split; [assumption|]; simpl.
  all: do 3 (split; [reflexivity|]); eassumption.
Qed.


Lemma mt_lit_nil l c k : mt (Lit []) l c k = k l c.
Proof. reflexivity. Qed.

Lemma mt_rep_none p l c k v :
  match l with [] => True | x :: _ => p x = false end ->
  k l c = Some v -> mt (Rep true p 0) l c k = Some v.
Proof. intros Hl Hk. exact (mt_rep_greedy p 0 [] l c k v (Forall_nil _) Hl (le_n 0) Hk). Qed.

Lemma mt_rep_greedy_all p m w c k v :
  Forall (fun x => p x = true) w -> m <= List.length w -> k [] c = Some v ->
  mt (Rep true p m) w c k = Some v.
Proof.
  intros Hw Hm Hk. rewrite <- (app_nil_r w). exact (mt_rep_greedy p m w [] c k v Hw I Hm Hk).
Qed.

Lemma mt_opt_some r l c k v : mt r l c k = Some v -> mt (Opt r) l c k = Some v.
Proof. intros H. simpl. rewrite H. reflexivity. Qed.

Lemma mt_opt_skip r l c k v : mt r l c k = None -> k l c = Some v -> mt (Opt r) l c k = Some v.
Proof. intros H Hk. simpl. rewrite H. exact Hk. Qed.

Lemma prefixb_cons_neq a s x l : a <> x -> prefixb (a :: s) (x :: l) = false.
Proof. intros H. cbn [prefixb]. rewrite (proj2 (Ascii.eqb_neq a x) H). reflexivity. Qed.

Lemma firstn_diff' (l w l' : text) : l = w ++ l' -> firstn (List.length l - List.length l') l = w.
Proof. intros ->. apply firstn_diff. Qed.

Lemma mt_number ds frac rest c k v :
  ds <> [] -> Forall (fun x => is_digit x = true) ds ->
  (frac = [] \/ exists fs, frac = "."%char :: fs /\ Forall (fun x => is_digit x = true) fs) ->
  match rest with [] => True | x :: _ => is_digit x = false /\ x <> "."%char end ->
  k rest c = Some v -> mt number_re (ds ++ frac ++ rest) c k = Some v.
Proof.
  intros Hne Hds Hfr Hr Hk. unfold number_re, seqs. cbn [fold_right].
  assert (Hlen : 1 <= List.length ds) by (destruct ds; [congruence|simpl; lia]).
  assert (Hnd : match rest with [] => True | x :: _ => is_digit x = false end)
    by (destruct rest; [exact I|exact (proj1 Hr)]).
  rewrite mt_seq. destruct Hfr as [->|(fs & -> & Hfs)].
  - cbn [app]. apply mt_rep_greedy; [exact Hds|exact Hnd|exact Hlen|].
    cbv beta. rewrite mt_seq. apply mt_opt_skip.
    + destruct rest as [|x r]; [reflexivity|]. cbn [mt].
      change (txt ".") with ["."%char]. rewrite prefixb_cons_neq; [reflexivity|].
      intros E. apply (proj2 Hr). symmetry. exact E.
    + rewrite mt_seq. apply mt_rep_none; [exact Hnd|]. cbv beta. apply Hk.
  - apply mt_rep_greedy; [exact Hds|reflexivity|exact Hlen|].
    cbv beta. rewrite mt_seq. apply mt_opt_some.
    change (("."%char :: fs) ++ rest) with (txt "." ++ (fs ++ rest)).
    rewrite mt_lit_app. rewrite mt_seq.
    apply mt_rep_greedy; [exact Hfs|exact Hnd|lia|]. apply Hk.
Qed.


Lemma rest_head (ws1 rest : text) :
  Forall (fun x => is_space x = true) ws1 ->
  match ws1 ++ "*"%char :: rest with
  | [] => True | x :: _ => is_digit x = false /\ x <> "."%char end.
Proof.
  intros H. destruct H as [|s ws1 Hs _]; simpl; [split; [reflexivity|discriminate]|].
  split.
  - destruct (is_digit s) eqn:E; [|reflexivity]. rewrite (digit_not_space _ E) in Hs.
    discriminate.
  - intros ->. discriminate.
Qed.

Ltac tail_tac :=
  rewrite mt_seq, mt_grp;
  apply mt_number; [discriminate|assumption|assumption|apply rest_head; assumption|];
  cbv beta;
  match goal with
  | |- context [firstn (List.length (?a ++ ?b ++ ?r) - List.length ?r) (?a ++ ?b ++ ?r)] =>
      rewrite (firstn_diff' _ (a ++ b) r (app_assoc _ _ _))
  end;
  rewrite mt_seq; apply mt_rep_greedy; [assumption|reflexivity|lia|];
  cbv beta; rewrite mt_seq, mt_lit_app;
  rewrite mt_seq;
  apply mt_rep_greedy; [assumption|apply word_not_space; assumption|lia|];
  cbv beta; rewrite mt_lit_nil.

Lemma firstn_sub_nil (l : text) : firstn (List.length l - List.length (@nil ascii)) l = l.
Proof. rewrite Nat.sub_0_r. apply firstn_all. Qed.

Ltac fin_tac :=
  rewrite mt_seq, mt_grp; apply mt_rep_greedy_all; [assumption|simpl; lia|];
  cbv beta; rewrite firstn_sub_nil, mt_lit_nil; reflexivity.

Lemma mt_variable_regex_term sg ds frac ws1 ws2 nm :
  (sg = [] \/ sg = txt "-") -> ds <> [] -> Forall (fun x => is_digit x = true) ds ->
  (frac = [] \/ exists fs, frac = "."%char :: fs /\ Forall (fun x => is_digit x = true) fs) ->
  Forall (fun x => is_space x = true) ws1 -> Forall (fun x => is_space x = true) ws2 ->
  nm <> [] -> Forall (fun x => is_word x = true) nm ->
  exists C, mt variable_regex (sg ++ ds ++ frac ++ ws1 ++ txt "*" ++ ws2 ++ nm) []
              (fun _ c => Some c) = Some C /\
    cap C "name" = Some nm /\ cap C "coeff" = Some (ds ++ frac) /\
    cap C "sign" = match sg with [] => None | _ => Some (txt "-") end.
Proof.
  intros Hsg Hne Hds Hfr Hws1 Hws2 Hnm Hw.
  destruct ds as [|d ds']; [congruence|].
  assert (Hd : is_digit d = true) by (inversion Hds; assumption).
  destruct nm as [|y nm']; [congruence|].
  assert (Hy : is_word y = true) by (inversion Hw; assumption).
  destruct Hsg as [->| ->].
  - eexists. split.
    + unfold variable_regex, seqs. cbn [fold_right].
      rewrite mt_seq. apply mt_opt_some. rewrite mt_grp.
      rewrite mt_seq, mt_seq.
      rewrite !app_nil_l. apply mt_rep_none; [exact (digit_not_space _ Hd)|]. cbv beta.
      rewrite mt_seq. apply mt_opt_skip.
      * cbn [mt app]. change (txt "-") with ["-"%char].
        rewrite prefixb_cons_neq; [reflexivity|].
        intros E. rewrite <- E in Hd. discriminate.
      * rewrite mt_seq. apply mt_rep_none; [exact (digit_not_space _ Hd)|]. cbv beta.
        rewrite mt_lit_nil.
        tail_tac.
        rewrite (firstn_diff' _ ((d :: ds') ++ frac ++ ws1 ++ txt "*" ++ ws2) (y :: nm'))
          by (rewrite <- !app_assoc; reflexivity).
        fin_tac.
    + simpl. repeat split.
  - eexists. split.
    + unfold variable_regex, seqs. cbn [fold_right].
      rewrite mt_seq. apply mt_opt_some. rewrite mt_grp.
      rewrite mt_seq, mt_seq.
      apply mt_rep_none; [reflexivity|]. cbv beta.
      rewrite mt_seq. apply mt_opt_some. rewrite mt_grp, mt_lit_app. cbv beta.
      rewrite firstn_diff. rewrite mt_seq.
      apply mt_rep_none; [exact (digit_not_space _ Hd)|]. cbv beta.
      rewrite mt_lit_nil.
      tail_tac.
      rewrite (firstn_diff' _ (txt "-" ++ (d :: ds') ++ frac ++ ws1 ++ txt "*" ++ ws2) (y :: nm'))
        by (rewrite <- !app_assoc; reflexivity).
      fin_tac.
    + simpl. repeat split.
Qed.
Lemma number_value ds frac :
  ds <> [] -> Forall (fun x => is_digit x = true) ds ->
  (frac = [] \/ exists fs, frac = "."%char :: fs /\ Forall (fun x => is_digit x = true) fs) ->
  exists q, parse_f64 (ds ++ frac) = Some q /\ (0 <= q)%Q.
Proof.
  intros Hne Hds Hfr.
  assert (Hm : mt number_re (ds ++ frac ++ []) []
                 (fun l c => match l with [] => Some c | _ => None end) = Some []).
  { apply mt_number; auto. }
  apply mt_sound in Hm as (w & l' & d & E & Hw & Hk).
  destruct l'; [|discriminate]. rewrite !app_nil_r in E. subst w.
  exact (number_re_value _ _ Hw).
Qed.








(** X1: every statement [get_components] works on is non-empty, holds no [';'], and neither starts nor ends with white space (the [split(';')], [trim] and length filter of lines 120-123). *)
Theorem statements_shape (doc s : text) :
  In s (statements doc) ->
  s <> [] /\ ~ In ";"%char s /\
  match s with [] => True | x :: _ => is_space x = false end /\
  match rev s with [] => True | x :: _ => is_space x = false end.
Proof.
  unfold statements. intros H. apply filter_In in H as [H Hne].
  apply in_map_iff in H as [p [<- Hp]].
  split; [destruct (trim p); [discriminate|discriminate]|].
  split.
  - intros Hin. apply trim_sub in Hin.
    apply (split_pieces _ _ _ Hp). exact Hin.
  - destruct (trim_spec p) as (sp1 & sp2 & _ & _ & _ & H1 & H2). auto.
Qed.

Lemma statements_shape_witness :
  In (txt "maximize profit: 3*a + b") (statements doc_one_objective) /\
  let s := txt "maximize profit: 3*a + b" in
  s <> [] /\ ~ In ";"%char s /\
  match s with [] => True | x :: _ => is_space x = false end /\
  match rev s with [] => True | x :: _ => is_space x = false end.
Proof.
  assert (H : In (txt "maximize profit: 3*a + b") (statements doc_one_objective))
    by (vm_compute; tauto).
  split; [exact H|]. exact (statements_shape _ _ H).
Defined.

(** X2: joining two documents that both parse with a [';'] gives a document that parses to the variables of both, in order, the constraints of both, in order, and the objective of the second. *)
Theorem get_components_app (d1 d2 : text) c1 c2 :
  get_components d1 = inr c1 -> get_components d2 = inr c2 ->
  get_components (d1 ++ ";"%char :: d2)
  = inr (mkComponents (variables c1 ++ variables c2) (constraints c1 ++ constraints c2)
                      (objective c2)).
Proof.
  intros H1 H2.
  destruct (get_components_inr _ _ H1) as [cs1 E1].
  destruct (get_components_inr _ _ H2) as [cs2 E2].
  rewrite (get_components_ok _ _ E1) in H1. rewrite (get_components_ok _ _ E2) in H2.
  assert (E : map_res component_from_line (statements (d1 ++ ";"%char :: d2)) = inr (cs1 ++ cs2))
    by (rewrite statements_app, map_res_app, E1, E2; reflexivity).
  rewrite (get_components_ok _ _ E).
  rewrite objectives_of_app, variables_of_app, constraints_of_app.
  destruct (objectives_of cs2) as [|o2 os2] eqn:Eo2; [simpl in H2; discriminate|].
  rewrite last_none_app by discriminate.
  destruct (last (None :: map Some (o2 :: os2)) None) as [o|]; [|discriminate].
  destruct (last (None :: map Some (objectives_of cs1)) None) as [o'|]; [|discriminate].
  injection H1 as <-. injection H2 as <-. reflexivity.
Qed.

Lemma get_components_app_witness :
  exists c1 c2,
    get_components (txt "var x; minimize a: x") = inr c1 /\
    get_components (txt "subject to c: x <= 3; maximize b: 2*x") = inr c2 /\
    get_components (txt "var x; minimize a: x" ++ ";"%char ::
                    txt "subject to c: x <= 3; maximize b: 2*x")
    = inr (mkComponents (variables c1 ++ variables c2) (constraints c1 ++ constraints c2)
                        (objective c2)).
Proof.
  do 2 eexists. split; [reflexivity|]. split; [reflexivity|].
  apply get_components_app; reflexivity.
Defined.

(** X3: inserting a statement that contains ['#'] (and no [';']) anywhere in a document changes nothing: the statement is classified as a comment and filtered out. *)
Theorem get_components_drop_comment (d1 c d2 : text) :
  In "#"%char c -> ~ In ";"%char c ->
  get_components (d1 ++ ";"%char :: c ++ ";"%char :: d2)
  = get_components (d1 ++ ";"%char :: d2).
Proof.
  intros Hh Hs.
  assert (Hin : In "#"%char (trim c)) by (apply trim_keeps; [exact Hh|reflexivity]).
  assert (Hst : statements c = [trim c]).
  { unfold statements. rewrite split_no_sep by exact Hs. simpl.
    destruct (trim c) as [|x t]; [destruct Hin|reflexivity]. }
  assert (Hc : component_from_line (trim c) = inr C_Comment).
  { unfold component_from_line, get_line_type.
    replace (contains (trim c) (txt "#")) with true
      by (symmetry; exact (contains_one _ _ Hin)).
    reflexivity. }
  unfold get_components. rewrite !statements_app, Hst, !map_res_app.
  cbn [map_res]. rewrite Hc. cbn [bind].
  destruct (map_res component_from_line (statements d1)) as [e|xs]; cbn [bind];
    [reflexivity|].
  destruct (map_res component_from_line (statements d2)) as [e|ys]; cbn [bind];
    [reflexivity|].
  rewrite !filter_app. reflexivity.
Qed.

Lemma get_components_drop_comment_witness :
  In "#"%char (txt " # a note ") /\ ~ In ";"%char (txt " # a note ") /\
  get_components (txt "var a" ++ ";"%char :: txt " # a note " ++ ";"%char ::
                  txt "maximize o: a")
  = get_components (txt "var a" ++ ";"%char :: txt "maximize o: a").
Proof.
  assert (H1 : In "#"%char (txt " # a note ")) by (vm_compute; tauto).
  assert (H2 : ~ In ";"%char (txt " # a note ")) by (vm_compute; intuition discriminate).
  split; [exact H1|]. split; [exact H2|]. exact (get_components_drop_comment _ _ _ H1 H2).
Defined.

(** X4: a document made only of white space and [';'] has no statements and fails with [MissingObjective]. *)
Theorem get_components_blank (doc : text) :
  Forall (fun x => is_space x = true \/ x = ";"%char) doc ->
  get_components doc = inl MissingObjective.
Proof.
  intros H.
  assert (Hp : forall p, In p (split ";"%char doc) -> trim p = []).
  { intros p Hp. apply trim_blank. apply Forall_forall. intros x Hx.
    destruct (split_pieces _ _ _ Hp) as [Hn Hsub].
    rewrite Forall_forall in H. destruct (H x (Hsub x Hx)) as [Hsp| ->]; [exact Hsp|].
    contradiction. }
  assert (Hnil : forall L, (forall p, In p L -> trim p = []) ->
            filter (fun line => negb (Nat.eqb (List.length line) 0)) (map trim L) = []).
  { induction L as [|p L IH]; intros HL; simpl; [reflexivity|].
    rewrite (HL p (or_introl eq_refl)). simpl. apply IH.
    intros q Hq. apply HL. right. exact Hq. }
  unfold get_components, statements. rewrite (Hnil _ Hp). reflexivity.
Qed.

Lemma get_components_blank_witness :
  Forall (fun x => is_space x = true \/ x = ";"%char) (txt " ; ;  ") /\
  get_components (txt " ; ;  ") = inl MissingObjective.
Proof.
  assert (H : Forall (fun x => is_space x = true \/ x = ";"%char) (txt " ; ;  ")).
  { apply Forall_forall. intros x Hx. vm_compute in Hx.
    repeat destruct Hx as [<-|Hx]; try contradiction;
      first [left; reflexivity | right; reflexivity]. }
  split; [exact H|]. exact (get_components_blank _ H).
Defined.

(** X5: when a document parses, its [variables] are the declarations parsed from its variable statements and its [constraints] the constraints parsed from its constraint statements, each in document order. *)
Theorem get_components_buckets (doc : text) comps :
  get_components doc = inr comps ->
  map_res parse_variable_declaration (filter (has_kind LT_Variable) (statements doc))
  = inr (variables comps) /\
  map_res parse_constraint (filter (has_kind LT_Constraint) (statements doc))
  = inr (constraints comps).
Proof.
  intros H. destruct (get_components_inr _ _ H) as [cs Ecs].
  rewrite (get_components_ok _ _ Ecs) in H.
  destruct (last (None :: map Some (objectives_of cs)) None); [|discriminate].
  injection H as <-. apply buckets_Forall2, map_res_Forall2. exact Ecs.
Qed.

Lemma get_components_buckets_witness :
  exists comps, get_components doc_one_objective = inr comps /\
  map_res parse_variable_declaration
    (filter (has_kind LT_Variable) (statements doc_one_objective)) = inr (variables comps) /\
  map_res parse_constraint
    (filter (has_kind LT_Constraint) (statements doc_one_objective)) = inr (constraints comps).
Proof.
  eexists. split; [reflexivity|]. apply get_components_buckets. reflexivity.
Defined.


(** X7: a term parsed by [parse_variable] has a non-empty name of word characters that occurs in the term, and a non-negative coefficient when the term has no ['-']. *)
Theorem parse_variable_fields (s : text) v :
  parse_variable s = inr v ->
  name v <> [] /\ Forall (fun x => is_word x = true) (name v) /\
  (exists pre post, s = pre ++ name v ++ post) /\
  (~ In "-"%char s -> (0 <= coefficient v)%Q).
Proof.
  intros H. unfold parse_variable, group, unwrap in H.
  destruct (captures variable_regex s) as [c|] eqn:Hc; [|discriminate]. cbn [bind] in H.
  destruct (captures_sound _ _ _ Hc) as (pre & w & post & Hs & Hm).
  destruct (variable_regex_shape _ _ Hm) as (p & nm & Hw & Hn & Hne & Hwd & Hsg & Hco).
  rewrite Hn in H. cbn [bind] in H.
  assert (Hcoef : exists q, (0 <= q)%Q /\
            mkVariable nm (q * match cap c "sign" with
                                | None => 1%Q | Some _ => (-1)%Q end)%Q = v).
  { destruct Hco as [Hco|(t & dn & Hco & Ht)]; rewrite Hco in H.
    - exists 1%Q. split; [discriminate|].
      cbv zeta in H. cbn [bind unwrap] in H. injection H as H. exact H.
    - destruct (number_re_value _ _ Ht) as [q [Hq Hq0]]. rewrite Hq in H.
      exists q. split; [exact Hq0|].
      cbv zeta in H. cbn [bind unwrap] in H. injection H as H. exact H. }
  destruct Hcoef as [q [Hq0 <-]]. cbn [name coefficient].
  split; [exact Hne|]. split; [exact Hwd|]. split.
  - subst. exists (pre ++ p), post. rewrite <- !app_assoc. reflexivity.
  - intros Hmin. destruct Hsg as [Hsg|[_ Hin]].
    + rewrite Hsg. rewrite Qmult_1_r. exact Hq0.
    + exfalso. apply Hmin. subst. rewrite !in_app_iff. tauto.
Qed.

Lemma parse_variable_fields_witness :
  exists v, parse_variable (txt " 2.5 * xy") = inr v /\
  name v <> [] /\ Forall (fun x => is_word x = true) (name v) /\
  (exists pre post, txt " 2.5 * xy" = pre ++ name v ++ post) /\
  (~ In "-"%char (txt " 2.5 * xy") -> (0 <= coefficient v)%Q).
Proof.
  eexists. split; [reflexivity|]. apply parse_variable_fields. reflexivity.
Defined.

(** X8: a term [sign digits fraction ws * ws name] of the documented shape parses to the name with the coefficient value of [digits fraction], negated when the sign is ['-']. *)
Theorem parse_variable_term sg ds frac ws1 ws2 nm :
  (sg = [] \/ sg = txt "-") -> ds <> [] -> Forall (fun x => is_digit x = true) ds ->
  (frac = [] \/ exists fs, frac = "."%char :: fs /\ Forall (fun x => is_digit x = true) fs) ->
  Forall (fun x => is_space x = true) ws1 -> Forall (fun x => is_space x = true) ws2 ->
  nm <> [] -> Forall (fun x => is_word x = true) nm ->
  exists q, parse_f64 (ds ++ frac) = Some q /\ (0 <= q)%Q /\
    parse_variable (sg ++ ds ++ frac ++ ws1 ++ txt "*" ++ ws2 ++ nm)
    = inr (mkVariable nm (q * match sg with [] => 1 | _ => -1 end)%Q).
Proof.
  intros Hsg Hne Hds Hfr Hws1 Hws2 Hnm Hw.
  destruct (mt_variable_regex_term sg ds frac ws1 ws2 nm Hsg Hne Hds Hfr Hws1 Hws2 Hnm Hw)
    as (C & Hmt & Hn & Hc & Hs).
  destruct (number_value ds frac Hne Hds Hfr) as (q & Hq & Hq0).
  exists q. split; [exact Hq|]. split; [exact Hq0|].
  unfold parse_variable, group. rewrite (captures_at_start _ _ _ Hmt).
  cbn [unwrap bind]. rewrite Hn. cbn [unwrap bind]. rewrite Hc, Hq. cbn [unwrap bind].
  rewrite Hs. destruct Hsg as [->| ->]; reflexivity.
Qed.

Lemma parse_variable_term_witness :
  (txt "-" = [] \/ txt "-" = txt "-") /\ txt "12" <> [] /\
  Forall (fun x => is_digit x = true) (txt "12") /\
  (txt ".5" = [] \/ exists fs, txt ".5" = "."%char :: fs /\
                               Forall (fun x => is_digit x = true) fs) /\
  Forall (fun x => is_space x = true) (txt " ") /\
  Forall (fun x => is_space x = true) (@nil ascii) /\
  txt "x" <> [] /\ Forall (fun x => is_word x = true) (txt "x") /\
  exists q, parse_f64 (txt "12" ++ txt ".5") = Some q /\ (0 <= q)%Q /\
    parse_variable (txt "-" ++ txt "12" ++ txt ".5" ++ txt " " ++ txt "*" ++ [] ++ txt "x")
    = inr (mkVariable (txt "x") (q * match txt "-" with [] => 1 | _ => -1 end)%Q).
Proof.
  assert (Hsg : txt "-" = [] \/ txt "-" = txt "-") by (right; reflexivity).
  assert (Hne : txt "12" <> []) by discriminate.
  assert (Hds : Forall (fun x => is_digit x = true) (txt "12")) by repeat constructor.
  assert (Hfr : txt ".5" = [] \/ exists fs, txt ".5" = "."%char :: fs /\
                               Forall (fun x => is_digit x = true) fs)
    by (right; exists (txt "5"); split; [reflexivity|repeat constructor]).
  assert (Hw1 : Forall (fun x => is_space x = true) (txt " ")) by repeat constructor.
  assert (Hw2 : Forall (fun x => is_space x = true) (@nil ascii)) by constructor.
  assert (Hnm : txt "x" <> []) by discriminate.
  assert (Hw : Forall (fun x => is_word x = true) (txt "x")) by repeat constructor.
  repeat (split; [assumption|]).
  exact (parse_variable_term _ _ _ _ _ _ Hsg Hne Hds Hfr Hw1 Hw2 Hnm Hw).
Defined.


(** X10: [parse_objective_vars] of two texts joined by ['+'] is the concatenation of the variables of each, the first error winning. *)
Theorem parse_objective_vars_app (a b : text) :
  parse_objective_vars (a ++ "+"%char :: b)
  = let* xs := parse_objective_vars a in
    let* ys := parse_objective_vars b in
    inr (xs ++ ys).
Proof. unfold parse_objective_vars. rewrite split_app_sep, map_app, map_res_app. reflexivity. Qed.

(** X11: a declaration parsed by [parse_variable_declaration] has coefficient 0 and a non-empty name of word characters that follows [var] and at least one white space in the statement. *)
Theorem parse_variable_declaration_fields (s : text) v :
  parse_variable_declaration s = inr v ->
  coefficient v = 0%Q /\ name v <> [] /\ Forall (fun x => is_word x = true) (name v) /\
  exists pre ws post, s = pre ++ txt "var" ++ ws ++ name v ++ post /\
    ws <> [] /\ Forall (fun x => is_space x = true) ws.
Proof.
  unfold parse_variable_declaration, group, unwrap. intros H.
  destruct (captures variable_declaration_regex s) as [c|] eqn:Hc; [|discriminate].
  cbn [bind] in H.
  destruct (captures_sound _ _ _ Hc) as (pre & w & post & -> & Hm).
  destruct (variable_declaration_regex_shape _ _ Hm)
    as (ws & nm & ws2 & -> & Hn & Hws & Hsp & Hne & Hw).
  rewrite Hn in H. cbn [bind] in H. injection H as <-. cbn [name coefficient].
  split; [reflexivity|]. split; [exact Hne|]. split; [exact Hw|].
  exists pre, ws, (ws2 ++ post). split; [rewrite <- !app_assoc; reflexivity|].
  split; assumption.
Qed.

Lemma parse_variable_declaration_fields_witness :
  exists v, parse_variable_declaration (txt "var  total ") = inr v /\
  coefficient v = 0%Q /\ name v <> [] /\ Forall (fun x => is_word x = true) (name v) /\
  exists pre ws post, txt "var  total " = pre ++ txt "var" ++ ws ++ name v ++ post /\
    ws <> [] /\ Forall (fun x => is_space x = true) ws.
Proof.
  eexists. split; [reflexivity|]. apply parse_variable_declaration_fields. reflexivity.
Defined.

(** X12: an objective parsed by [parse_objective] has a non-empty name of word characters and a non-empty variable list; the statement contains [maximize] or [minimize] (as the direction says), the name, a [':'] and an equation whose variables are the objective's. *)
Theorem parse_objective_fields (s : text) o :
  parse_objective s = inr o ->
  o_name o <> [] /\ Forall (fun x => is_word x = true) (o_name o) /\ o_variables o <> [] /\
  exists pre ws1 ws2 ws3 eqn post,
    s = pre ++ (if maximize o then txt "maximize" else txt "minimize")
            ++ ws1 ++ o_name o ++ ws2 ++ txt ":" ++ ws3 ++ eqn ++ post /\
    parse_objective_vars eqn = inr (o_variables o).
Proof.
  unfold parse_objective, group, unwrap. intros H.
  destruct (captures objective_regex s) as [c|] eqn:Hc; [|discriminate].
  cbn [bind] in H.
  destruct (captures_sound _ _ _ Hc) as (pre & w & post & -> & Hm).
  destruct (objective_regex_shape _ _ Hm)
    as (ty & ws1 & nm & ws2 & ws3 & eqn & -> & Hty & Ht & Hn & He & Hne & Hw).
  rewrite Hn, He in H. cbn [bind] in H.
  destruct (parse_objective_vars eqn) as [e|vs] eqn:Hv; [discriminate|].
  cbn [bind] in H. rewrite Ht in H. cbn [bind] in H. injection H as <-.
  cbn [o_name o_variables maximize].
  split; [exact Hne|]. split; [exact Hw|].
  split; [exact (parse_objective_vars_nonempty _ _ Hv)|].
  exists pre, ws1, ws2, ws3, eqn, post. split; [|exact Hv].
  destruct Hty as [<-|[<-|[]]].
  - replace (contains (txt "minimize") (txt "maximize")) with false by reflexivity.
    rewrite <- !app_assoc. reflexivity.
  - replace (contains (txt "maximize") (txt "maximize")) with true by reflexivity.
    rewrite <- !app_assoc. reflexivity.
Qed.

Lemma parse_objective_fields_witness :
  exists o, parse_objective (txt "maximize profit: 3*a + b") = inr o /\
  o_name o <> [] /\ Forall (fun x => is_word x = true) (o_name o) /\
  o_variables o <> [] /\
  exists pre ws1 ws2 ws3 eqn post,
    txt "maximize profit: 3*a + b"
    = pre ++ (if maximize o then txt "maximize" else txt "minimize") ++ ws1 ++
      o_name o ++ ws2 ++ txt ":" ++ ws3 ++ eqn ++ post /\
    parse_objective_vars eqn = inr (o_variables o).
Proof.
  eexists. split; [reflexivity|]. apply parse_objective_fields. reflexivity.
Defined.

(** X13: a constraint parsed by [parse_constraint] has a name of word characters, a non-negative constant and a non-empty variable list, parsed from a terms part free of ['='], ['>'] and ['<'] that follows [subject to name:]. *)
Theorem parse_constraint_fields (s : text) con :
  parse_constraint s = inr con ->
  Forall (fun x => is_word x = true) (c_name con) /\ (0 <= constant con)%Q /\
  c_variables con <> [] /\
  exists pre s1 terms rest post,
    s = pre ++ txt "subject to " ++ c_name con ++ txt ":" ++ s1 ++ terms ++ rest ++ post /\
    Forall (fun x => not_in (txt "=><") x = true) terms /\
    parse_objective_vars terms = inr (c_variables con).
Proof.
  unfold parse_constraint, group, unwrap. intros H.
  destruct (captures constraint_regex s) as [c|] eqn:Hc; [|discriminate].
  cbn [bind] in H.
  destruct (captures_sound _ _ _ Hc) as (pre & w & post & -> & Hm).
  destruct (constraint_regex_shape _ _ Hm)
    as (nm & s1 & terms & rest & t & dn & -> & Hw & Hterms & Hn & Htm & Ht & Hnum).
  destruct (number_re_value _ _ Hnum) as [q [Hq Hq0]].
  rewrite Hn in H. cbn [bind] in H.
  destruct (cap c "type") as [ty|]; [|discriminate]. cbn [bind] in H.
  rewrite Ht in H. cbn [bind] in H. rewrite Hq in H. cbn [bind] in H.
  rewrite Htm in H. cbn [bind] in H.
  destruct (parse_objective_vars terms) as [e|vs] eqn:Hv; [discriminate|].
  cbn [bind] in H. injection H as <-. cbn [c_name constant c_variables].
  split; [exact Hw|]. split; [exact Hq0|].
  split; [exact (parse_objective_vars_nonempty _ _ Hv)|].
  exists pre, s1, terms, rest, post. split; [rewrite <- !app_assoc; reflexivity|].
  split; [exact Hterms|exact Hv].
Qed.

Lemma parse_constraint_fields_witness :
  exists con, parse_constraint (txt "subject to c1: 2*a + b <= 10") = inr con /\
  Forall (fun x => is_word x = true) (c_name con) /\ (0 <= constant con)%Q /\
  c_variables con <> [] /\
  exists pre s1 terms rest post,
    txt "subject to c1: 2*a + b <= 10"
    = pre ++ txt "subject to " ++ c_name con ++ txt ":" ++ s1 ++ terms ++ rest ++ post /\
    Forall (fun x => not_in (txt "=><") x = true) terms /\
    parse_objective_vars terms = inr (c_variables con).
Proof.
  eexists. split; [reflexivity|]. apply parse_constraint_fields. reflexivity.
Defined.


